(** * Walking a directory tree of Go modules: a model of [each.go]

    The development embeds [Walker.Each], [Walker.EachGomod],
    [Walker.LoadEach] and [Walker.LoadEachGomod] over an explicit model of
    the file system, of Go error values and of the external collaborators
    ([os], [modfile], [packages]), and proves what the traversal does.

    Conventions.
    - A path is the list of its components; [filepath.Join dir name] adds
      one component.  The first component is the directory the caller
      passed, the empty list is the empty string.
    - A Go [error] result is an [option error]; [None] is [nil].
    - Every call that leaves the walker (a [stat], a directory listing, the
      callback, the loader, the parser) is recorded in a trace, in the order
      the code performs it.  The code under study is otherwise untouched by
      the trace.
    - The file system is a tree that does not change during a walk; a
      directory entry that is not a directory (a file, a symbolic link) is
      never descended into, as [entry.IsDir()] is false for it. *)

From Stdlib Require Import List String Ascii ZArith Bool Lia.
Import ListNotations.
Local Open Scope string_scope.
Local Open Scope list_scope.

Set Implicit Arguments.
Set Warnings "-register-all".

(** ** Paths *)

Definition path := list string.

(** [filepath.Join(dir, name)] for a single entry name. *)
Definition filepath_Join (dir : path) (name : string) : path := dir ++ [name].

(** [p] is [d] or lies below it. *)
Definition descendant (d p : path) : Prop := exists suffix, p = d ++ suffix.

(** [p] lies strictly below [d]. *)
Definition strict_descendant (d p : path) : Prop :=
  exists suffix, suffix <> [] /\ p = d ++ suffix.

(** ** Go error values *)

(** The three sentinel errors the code compares against with [errors.Is]. *)
Inductive sentinel : Type :=
| SkipDir      (* filepath.SkipDir *)
| SkipAll      (* filepath.SkipAll *)
| ErrNotExist. (* fs.ErrNotExist *)

Definition sentinel_eqb (a b : sentinel) : bool :=
  match a, b with
  | SkipDir, SkipDir | SkipAll, SkipAll | ErrNotExist, ErrNotExist => true
  | _, _ => false
  end.

(** The error numbers of the operating system that matter here. *)
Inductive errno : Type :=
| ENOENT | EACCES | ENOTDIR | EISDIR | EIO.

(** [packages.Error]: a plain struct, it wraps nothing. *)
Record packages_Error : Type := mkPackagesError {
  Pos : string;
  Msg : string;
  Kind : nat
}.

Inductive error : Type :=
| Sentinel (s : sentinel)
| ErrorString (msg : string)                       (* errors.New, fmt.Errorf *)
| Errno (code : errno)                             (* syscall.Errno *)
| PathError (op : string) (p : path) (err : error) (* *fs.PathError *)
| ErrorList (errs : list error)                    (* modfile.ErrorList: no Unwrap method *)
| PackagesError (pe : packages_Error)              (* a packages.Error value *)
| Wrapf (err : error) (format : string) (arg : path) (* errors.Wrapf(err, format, arg) *)
| PackageLoadError (PkgPath : string) (Err : error)
| Joined (errs : list error).                      (* the result of errors.Join *)

Coercion Sentinel : sentinel >-> error.

(** [errors.Is(err, target)] for a sentinel target: the depth-first walk of
    the tree that [Unwrap() error] and [Unwrap() []error] span. *)
Fixpoint errors_Is (err : error) (target : sentinel) : bool :=
  match err with
  | Sentinel s => sentinel_eqb s target
  | ErrorString _ => false
  | Errno code =>
      (* syscall.Errno.Is *)
      match code, target with
      | ENOENT, ErrNotExist => true
      | _, _ => false
      end
  | PathError _ _ e => errors_Is e target
  | ErrorList _ => false
  | PackagesError _ => false
  | Wrapf e _ _ => errors_Is e target
  | PackageLoadError _ e => errors_Is e target
  | Joined es =>
      (fix any (l : list error) : bool :=
         match l with
         | [] => false
         | e :: l' => errors_Is e target || any l'
         end) es
  end.

(** [errors.Is] on a possibly nil error. *)
Definition Is (r : option error) (target : sentinel) : bool :=
  match r with
  | Some e => errors_Is e target
  | None => false
  end.

(** Every error the [errors.Is]/[errors.As] walk of [err] passes through,
    in the order of the walk. *)
Fixpoint unwrap_chain (err : error) : list error :=
  err ::
  match err with
  | Sentinel _ | ErrorString _ | Errno _ | ErrorList _ | PackagesError _ => []
  | PathError _ _ e => unwrap_chain e
  | Wrapf e _ _ => unwrap_chain e
  | PackageLoadError _ e => unwrap_chain e
  | Joined es =>
      (fix all (l : list error) : list error :=
         match l with
         | [] => []
         | e :: l' => unwrap_chain e ++ all l'
         end) es
  end.

(** [errors.Join(errs...)]: nil values are discarded, the result is nil when
    nothing is left. *)
Definition errors_Join (errs : list (option error)) : option error :=
  match flat_map (fun r => match r with Some e => [e] | None => [] end) errs with
  | [] => None
  | es => Some (Joined es)
  end.

(** An error that is neither of the walker's two control signals. *)
Definition fatal (e : error) : Prop :=
  errors_Is e SkipDir = false /\ errors_Is e SkipAll = false.

(** ** The file system *)

(** What can go wrong with a directory: [os.Stat] of its [go.mod] failing
    for a reason of its own, and [os.ReadDir] failing. *)
Record Faults : Type := mkFaults {
  statFault : option errno;
  readDirFault : option errno
}.

Definition noFaults : Faults := mkFaults None None.

(** A directory lists its entries in the order [os.ReadDir] returns them. *)
Inductive Node : Type :=
| NFile (data : errno + string)   (* anything that is not a directory; what os.ReadFile gives *)
| NDir (faults : Faults) (entries : list (string * Node)).

Definition IsDir (n : Node) : bool :=
  match n with
  | NDir _ _ => true
  | NFile _ => false
  end.

Definition lookup_entry (name : string) (entries : list (string * Node)) : option Node :=
  match find (fun ne => String.eqb (fst ne) name) entries with
  | Some ne => Some (snd ne)
  | None => None
  end.

Definition has_gomod (entries : list (string * Node)) : bool :=
  match lookup_entry "go.mod" entries with
  | Some _ => true
  | None => false
  end.

(** [os.Stat(filepath.Join(dir, "go.mod"))] where [node] is what [dir] is. *)
Definition os_Stat_gomod (node : Node) (gomodPath : path) : option error :=
  match node with
  | NFile _ => Some (PathError "stat" gomodPath (Errno ENOTDIR))
  | NDir flt entries =>
      match statFault flt with
      | Some code => Some (PathError "stat" gomodPath (Errno code))
      | None =>
          if has_gomod entries then None
          else Some (PathError "stat" gomodPath (Errno ENOENT))
      end
  end.

(** The node a relative path leads to. *)
Fixpoint resolve (node : Node) (rel : path) : option Node :=
  match rel with
  | [] => Some node
  | name :: rel' =>
      match node with
      | NFile _ => None
      | NDir _ entries =>
          match lookup_entry name entries with
          | Some child => resolve child rel'
          | None => None
          end
      end
  end.

Fixpoint strip_prefix (d p : path) : option path :=
  match d, p with
  | [], _ => Some p
  | x :: d', y :: p' => if String.eqb x y then strip_prefix d' p' else None
  | _ :: _, [] => None
  end.

(** The machine's file system as the walk sees it: the tree [tree] mounted
    at the directory [mount]. *)
Record FS : Type := mkFS {
  mount : path;
  tree : Node
}.

(** [os.ReadFile(p)]. *)
Definition os_ReadFile (fs : FS) (p : path) : error + string :=
  match strip_prefix (mount fs) p with
  | None => inl (PathError "open" p (Errno ENOENT))
  | Some rel =>
      match resolve (tree fs) rel with
      | None => inl (PathError "open" p (Errno ENOENT))
      | Some (NDir _ _) => inl (PathError "read" p (Errno EISDIR))
      | Some (NFile (inl code)) => inl (PathError "open" p (Errno code))
      | Some (NFile (inr data)) => inr data
      end
  end.

(** ** The packages collaborator's data *)

(** [packages.LoadMode] bits, in the order of their declaration in
    [golang.org/x/tools/go/packages] ([1 << iota]; three unexported bits lie
    between [NeedTypesSizes] and [NeedModule]). *)
Definition NeedName : Z := 1.
Definition NeedFiles : Z := 2.
Definition NeedCompiledGoFiles : Z := 4.
Definition NeedImports : Z := 8.
Definition NeedDeps : Z := 16.
Definition NeedExportFile : Z := 32.
Definition NeedTypes : Z := 64.
Definition NeedSyntax : Z := 128.
Definition NeedTypesInfo : Z := 256.
Definition NeedTypesSizes : Z := 512.
Definition NeedModule : Z := 8192.
Definition NeedEmbedFiles : Z := 16384.
Definition NeedEmbedPatterns : Z := 32768.

(** A function, pointer or interface value: [None] is nil, [Some h] is the
    value with identity [h]. *)
Definition handle := option nat.

(** [packages.Config].  A slice or map field is [None] when nil, which
    [reflect.DeepEqual] tells apart from an empty one. *)
Record Config : Type := mkConfig {
  Mode : Z;
  Context : handle;
  Logf : handle;
  Dir : path;
  Env : option (list string);
  BuildFlags : option (list string);
  Fset : handle;
  ParseFile : handle;
  Tests : bool;
  Overlay : option (list (string * string))
}.

(** [packages.Package], the two fields the walker reads. *)
Record Package : Type := mkPackage {
  PkgPath : string;
  Errors : list packages_Error
}.

Definition is_none {A} (o : option A) : bool :=
  match o with
  | None => true
  | Some _ => false
  end.

Definition is_nil {A} (l : list A) : bool :=
  match l with
  | [] => true
  | _ :: _ => false
  end.

(** [var zeroLoadConfig packages.Config] *)
Definition zeroLoadConfig : Config :=
  mkConfig 0 None None [] None None None None false None.

Infix "|||" := Z.lor (at level 50, left associativity).

(** [const DefaultLoadMode] *)
Definition DefaultLoadMode : Z :=
  NeedName ||| NeedFiles ||| NeedImports ||| NeedDeps ||| NeedTypes ||| NeedSyntax
  ||| NeedTypesInfo ||| NeedTypesSizes ||| NeedModule ||| NeedEmbedFiles
  ||| NeedEmbedPatterns.

(** [var DefaultLoadConfig = packages.Config{Mode: DefaultLoadMode}] *)
Definition DefaultLoadConfig : Config :=
  mkConfig DefaultLoadMode None None [] None None None None false None.

(** [reflect.DeepEqual(conf, zeroLoadConfig)]: every field is its zero
    value; a non-nil function is never deeply equal to anything. *)
Definition isZeroConfig (conf : Config) : bool :=
  (Mode conf =? 0)%Z && is_none (Context conf) && is_none (Logf conf)
  && is_nil (Dir conf) && is_none (Env conf) && is_none (BuildFlags conf)
  && is_none (Fset conf) && is_none (ParseFile conf) && negb (Tests conf)
  && is_none (Overlay conf).

Definition set_Mode (conf : Config) (m : Z) : Config :=
  mkConfig m (Context conf) (Logf conf) (Dir conf) (Env conf) (BuildFlags conf)
           (Fset conf) (ParseFile conf) (Tests conf) (Overlay conf).

Definition set_Dir (conf : Config) (d : path) : Config :=
  mkConfig (Mode conf) (Context conf) (Logf conf) d (Env conf) (BuildFlags conf)
           (Fset conf) (ParseFile conf) (Tests conf) (Overlay conf).

(** ** The walker *)

Record Walker : Type := mkWalker {
  IncludeVendor : bool;
  IncludeTestdata : bool;
  ParseLax : bool;
  VersionFixer : handle;
  LoadConfig : Config;
  FailOnPackageErrors : bool
}.

(** [var w Walker]: the zero value. *)
Definition zeroWalker : Walker :=
  mkWalker false false false None zeroLoadConfig false.

(** ** Traces and the monad of the walk *)

(** What the walker itself does to the outside world.  [EvVisit dir inner
    ret] is one call [f(dir)]: [inner] is what [f] did in turn, [ret] what it
    returned. *)
Inductive wevent (C : Type) : Type :=
| EvStat (gomodPath : path)
| EvVisit (dir : path) (inner : list C) (ret : option error)
| EvReadDir (dir : path).
Arguments EvStat {C} gomodPath.
Arguments EvVisit {C} dir inner ret.
Arguments EvReadDir {C} dir.

(** A computation over the caller's state [St] that emits events of type
    [E] and returns an [A]. *)
Definition M (St E A : Type) : Type := St -> St * list E * A.

Definition ret {St E A} (a : A) : M St E A := fun s => (s, [], a).

Definition bind {St E A B} (m : M St E A) (k : A -> M St E B) : M St E B :=
  fun s =>
    let '(s1, t1, a) := m s in
    let '(s2, t2, b) := k a s1 in
    (s2, t1 ++ t2, b).

Definition emit {St E} (e : E) : M St E unit := fun s => (s, [e], tt).

Notation "x <- m ;; k" := (bind m (fun x => k))
  (at level 61, m at next level, right associativity).
Notation "m ;;; k" := (bind m (fun _ => k))
  (at level 61, right associativity).

Definition state_of {St E A} (x : St * list E * A) : St := fst (fst x).
Definition trace_of {St E A} (x : St * list E * A) : list E := snd (fst x).
Definition result_of {St E A} (x : St * list E * A) : A := snd x.

(** How the first half of [each] ends: fall through to the directory
    listing, or return. *)
Inductive flow : Type :=
| Continue
| Return (r : option error).

Section Walk.

Context {St C : Type}.

(** A Go callback [func(string) error]: it may change the caller's state and
    talk to the outside world. *)
Definition visitor : Type := path -> M St C (option error).

(** The call [f(dir)] as the walker performs it. *)
Definition call (f : visitor) (dir : path) : M St (wevent C) (option error) :=
  fun s =>
    let '(s1, inner, r) := f dir s in
    (s1, [EvVisit dir inner r], r).

(** [func (w *Walker) each(dir string, f func(string) error) error], where
    [node] is what [dir] names in the file system. *)
Fixpoint each (w : Walker) (node : Node) (dir : path) (f : visitor) {struct node}
  : M St (wevent C) (option error) :=
  let gomodPath := filepath_Join dir "go.mod" in
  emit (EvStat gomodPath) ;;;
  let err := os_Stat_gomod node gomodPath in
  fl <- (if Is err ErrNotExist then
           (* no go.mod, skip *)
           ret Continue
         else
           match err with
           | Some e => ret (Return (Some (Wrapf e "statting %s" gomodPath)))
           | None =>
               err <- call f dir ;;
               if Is err SkipDir then ret (Return None)
               else
                 match err with
                 | Some e => ret (Return (Some (Wrapf e "in %s" dir)))
                 | None => ret Continue
                 end
           end) ;;
  match fl with
  | Return r => ret r
  | Continue =>
      emit (EvReadDir dir) ;;;
      match node with
      | NFile _ =>
          ret (Some (Wrapf (PathError "open" dir (Errno ENOTDIR))
                           "reading directory %s" dir))
      | NDir flt entries =>
          match readDirFault flt with
          | Some code =>
              ret (Some (Wrapf (PathError "open" dir (Errno code))
                               "reading directory %s" dir))
          | None =>
              (fix loop (entries : list (string * Node)) : M St (wevent C) (option error) :=
                 match entries with
                 | [] => ret None
                 | (name, child) :: rest =>
                     if negb (IsDir child) then loop rest
                     else if String.prefix "." name || String.prefix "_" name then loop rest
                     else if negb (IncludeVendor w) && String.eqb name "vendor" then loop rest
                     else if negb (IncludeTestdata w) && String.eqb name "testdata" then loop rest
                     else
                       err <- each w child (filepath_Join dir name) f ;;
                       match err with
                       | Some e => ret (Some e)
                       | None => loop rest
                       end
                 end) entries
          end
      end
  end.

(** [func (w *Walker) Each(dir string, f func(string) error) error] *)
Definition Each (w : Walker) (node : Node) (dir : path) (f : visitor)
  : M St (wevent C) (option error) :=
  err <- each w node dir f ;;
  if Is err SkipAll then ret None else ret err.

(** The caller's function [f func(string) error] as a state transformer,
    and [Each] calling it. *)
Definition callback1 : Type := path -> St -> St * option error.

Definition user1 (f : callback1) : visitor :=
  fun dir s => let '(s1, r) := f dir s in (s1, [], r).

End Walk.

(** ** The adapters *)

(** What a visit of one module root does to the outside world. *)
Inductive cevent (File : Type) : Type :=
| CLoad (conf : Config) (patterns : list string)        (* packages.Load(&conf, patterns...) *)
| CReadFile (p : path)                                  (* os.ReadFile(p) *)
| CParse (lax : bool) (p : path) (fixer : handle)       (* modfile.Parse or modfile.ParseLax *)
| CCallback (dir : path) (mf : option File) (pkgs : option (list Package))
            (ret : option error).                       (* the caller's function *)
Arguments CLoad {File} conf patterns.
Arguments CReadFile {File} p.
Arguments CParse {File} lax p fixer.
Arguments CCallback {File} dir mf pkgs ret.

Section Adapters.

Context {St : Type}.

(** [*modfile.File], and the two parsers of [golang.org/x/mod/modfile]; a
    parser fails with the list of the errors it found. *)
Variable modfile_File : Type.
Variable modfile_Parse : path -> string -> handle -> list error + modfile_File.
Variable modfile_ParseLax : path -> string -> handle -> list error + modfile_File.

(** [packages.Load(cfg, patterns...)] *)
Variable packages_Load : Config -> list string -> error + list Package.

Local Abbreviation cev := (cevent modfile_File).

(** The caller's function of each entry point, as a state transformer. *)
Definition callback2 : Type := path -> modfile_File -> St -> St * option error.
Definition callback3 : Type := path -> list Package -> St -> St * option error.
Definition callback4 : Type :=
  path -> modfile_File -> list Package -> St -> St * option error.

(** Calling the caller's function. *)
Definition user2 (f : callback2) (dir : path) (mf : modfile_File)
  : M St cev (option error) :=
  fun s => let '(s1, r) := f dir mf s in (s1, [CCallback dir (Some mf) None r], r).

Definition user3 (f : callback3) (dir : path) (pkgs : list Package)
  : M St cev (option error) :=
  fun s => let '(s1, r) := f dir pkgs s in (s1, [CCallback dir None (Some pkgs) r], r).

Definition user4 (f : callback4) (dir : path) (mf : modfile_File) (pkgs : list Package)
  : M St cev (option error) :=
  fun s =>
    let '(s1, r) := f dir mf pkgs s in
    (s1, [CCallback dir (Some mf) (Some pkgs) r], r).

(** [func (w *Walker) withGomod(dir, subdir string, f func(string, *modfile.File) error) error] *)
Definition withGomod (w : Walker) (fs : FS) (dir subdir : path)
    (f : path -> modfile_File -> M St cev (option error)) : M St cev (option error) :=
  let gomodPath := filepath_Join subdir "go.mod" in
  emit (CReadFile gomodPath) ;;;
  match os_ReadFile fs gomodPath with
  | inl err => ret (Some (Wrapf err "reading %s" gomodPath))
  | inr data =>
      emit (CParse (ParseLax w) gomodPath (VersionFixer w)) ;;;
      let parsed :=
        if ParseLax w then modfile_ParseLax gomodPath data (VersionFixer w)
        else modfile_Parse gomodPath data (VersionFixer w) in
      match parsed with
      | inl errs => ret (Some (Wrapf (ErrorList errs) "parsing %s" gomodPath))
      | inr mf => f subdir mf
      end
  end.

(** The parser [withGomod] picks, applied. *)
Definition parse_gomod (w : Walker) (gomodPath : path) (data : string)
  : list error + modfile_File :=
  if ParseLax w then modfile_ParseLax gomodPath data (VersionFixer w)
  else modfile_Parse gomodPath data (VersionFixer w).

(** The [go.mod] of [D] cannot be read, or does not parse; [e] is the
    error and [ctx] the context [withGomod] wraps it with. *)
Definition manifest_fails (w : Walker) (fs : FS) (D : path) (e : error) (ctx : string)
  : Prop :=
  (os_ReadFile fs (filepath_Join D "go.mod") = inl e /\ ctx = "reading %s")
  \/
  (exists data errs,
      os_ReadFile fs (filepath_Join D "go.mod") = inr data /\
      parse_gomod w (filepath_Join D "go.mod") data = inl errs /\
      e = ErrorList errs /\ ctx = "parsing %s").

(** [func (w *Walker) EachGomod(dir string, f func(string, *modfile.File) error) error];
    the file system is [node] mounted at [dir]. *)
Definition EachGomod (w : Walker) (node : Node) (dir : path)
    (f : path -> modfile_File -> M St cev (option error))
  : M St (wevent cev) (option error) :=
  Each w node dir (fun subdir => withGomod w (mkFS dir node) dir subdir f).

(** The configuration [LoadEach] hands to the loader. *)
Definition loadConf (w : Walker) (dir : path) : Config :=
  let conf := LoadConfig w in
  let conf := if isZeroConfig conf then DefaultLoadConfig else conf in
  let conf := if (Mode conf =? 0)%Z then set_Mode conf DefaultLoadMode else conf in
  set_Dir conf dir.

(** The loop of [LoadEach] over the packages and their errors. *)
Definition joinPackageErrors (pkgs : list Package) : option error :=
  fold_left
    (fun err pkg =>
       fold_left
         (fun err pkgErr =>
            errors_Join [err; Some (PackageLoadError (PkgPath pkg) (PackagesError pkgErr))])
         (Errors pkg) err)
    pkgs None.

(** The function literal [LoadEach] passes to [w.Each]; [conf] is the
    variable it closes over. *)
Definition loadEach_visit (w : Walker) (conf : Config)
    (f : path -> list Package -> M St cev (option error)) : @visitor St cev :=
  fun subdir =>
    emit (CLoad conf ["./..."]) ;;;
    match packages_Load conf ["./..."] with
    | inl err => ret (Some (Wrapf err "loading packages in %s" subdir))
    | inr pkgs =>
        fl <- (if FailOnPackageErrors w then
                 match joinPackageErrors pkgs with
                 | Some err => ret (Return (Some err))
                 | None => ret Continue
                 end
               else ret Continue) ;;
        match fl with
        | Return r => ret r
        | Continue => f subdir pkgs
        end
    end.

(** [func (w *Walker) LoadEach(dir string, f func(string, []*packages.Package) error) error] *)
Definition LoadEach (w : Walker) (node : Node) (dir : path)
    (f : path -> list Package -> M St cev (option error))
  : M St (wevent cev) (option error) :=
  let conf := loadConf w dir in
  Each w node dir (loadEach_visit w conf f).

(** [func (w *Walker) LoadEachGomod(dir string, f func(string, *modfile.File, []*packages.Package) error) error] *)
Definition LoadEachGomod (w : Walker) (node : Node) (dir : path)
    (f : path -> modfile_File -> list Package -> M St cev (option error))
  : M St (wevent cev) (option error) :=
  LoadEach w node dir (fun subdir pkgs =>
    withGomod w (mkFS dir node) dir subdir (fun subdir mf => f subdir mf pkgs)).

End Adapters.

Unset Implicit Arguments.

(** ** What the traversal is compared with *)

(** The name rules of the loop in [each]: what the name of a child
    directory must satisfy for the walk to go into it. *)
Definition allowed_name (w : Walker) (name : string) : bool :=
  negb (String.prefix "." name || String.prefix "_" name)
  && negb (negb (IncludeVendor w) && String.eqb name "vendor")
  && negb (negb (IncludeTestdata w) && String.eqb name "testdata").

(** The child-entry test of the loop in [each]: the entry is a directory
    and no name rule excludes it. *)
Definition eligible (w : Walker) (name : string) (child : Node) : bool :=
  IsDir child && allowed_name w name.

(** The directories with a [go.mod] entry that are reached from the root
    through eligible entries only, parents before children, children in
    listing order. *)
Fixpoint roots (w : Walker) (node : Node) (dir : path) {struct node} : list path :=
  match node with
  | NFile _ => []
  | NDir _ entries =>
      (if has_gomod entries then [dir] else []) ++
      (fix below (entries : list (string * Node)) : list path :=
         match entries with
         | [] => []
         | (name, child) :: rest =>
             (if eligible w name child then roots w child (filepath_Join dir name) else [])
             ++ below rest
         end) entries
  end.

(** Every directory of the tree with a [go.mod] entry, whatever its name. *)
Fixpoint manifest_dirs (node : Node) (dir : path) {struct node} : list path :=
  match node with
  | NFile _ => []
  | NDir _ entries =>
      (if has_gomod entries then [dir] else []) ++
      (fix below (entries : list (string * Node)) : list path :=
         match entries with
         | [] => []
         | (name, child) :: rest => manifest_dirs child (filepath_Join dir name) ++ below rest
         end) entries
  end.

(** No [stat] and no directory listing fails where the walk goes, and the
    root is a directory. *)
Fixpoint healthy (w : Walker) (node : Node) {struct node} : bool :=
  match node with
  | NFile _ => false
  | NDir flt entries =>
      is_none (statFault flt) && is_none (readDirFault flt) &&
      (fix all (entries : list (string * Node)) : bool :=
         match entries with
         | [] => true
         | (name, child) :: rest =>
             (if eligible w name child then healthy w child else true) && all rest
         end) entries
  end.

Fixpoint distinct (names : list string) : bool :=
  match names with
  | [] => true
  | n :: rest => negb (existsb (String.eqb n) rest) && distinct rest
  end.

(** In every directory the entries have pairwise different names. *)
Fixpoint well_formed (node : Node) {struct node} : bool :=
  match node with
  | NFile _ => true
  | NDir _ entries =>
      distinct (map fst entries) &&
      (fix all (entries : list (string * Node)) : bool :=
         match entries with
         | [] => true
         | (_, child) :: rest => well_formed child && all rest
         end) entries
  end.

(** The loops of [roots], [healthy] and [well_formed] over the entries of a
    directory, on their own. *)
Definition roots_entries (w : Walker) (dir : path) : list (string * Node) -> list path :=
  fix below (entries : list (string * Node)) : list path :=
    match entries with
    | [] => []
    | (name, child) :: rest =>
        (if eligible w name child then roots w child (filepath_Join dir name) else [])
        ++ below rest
    end.

Definition healthy_entries (w : Walker) : list (string * Node) -> bool :=
  fix all (entries : list (string * Node)) : bool :=
    match entries with
    | [] => true
    | (name, child) :: rest =>
        (if eligible w name child then healthy w child else true) && all rest
    end.

Definition well_formed_entries : list (string * Node) -> bool :=
  fix all (entries : list (string * Node)) : bool :=
    match entries with
    | [] => true
    | (_, child) :: rest => well_formed child && all rest
    end.

(** [p] is [dir] followed by components the name rules allow. *)
Definition within (w : Walker) (dir p : path) : Prop :=
  exists suffix, p = dir ++ suffix /\ Forall (fun c => allowed_name w c = true) suffix.

(** [p] is at or below the eligible entry [name] of [entries] in [dir]. *)
Definition within_entries (w : Walker) (dir : path) (entries : list (string * Node))
    (p : path) : Prop :=
  exists name child suffix,
    In (name, child) entries /\ eligible w name child = true /\
    p = dir ++ name :: suffix /\ Forall (fun c => allowed_name w c = true) suffix.

(** The directories the walker called its function on, in order. *)
Definition visited {C} (tr : list (wevent C)) : list path :=
  flat_map (fun ev => match ev with EvVisit d _ _ => [d] | _ => [] end) tr.

(** The directory an event is about. *)
Definition ev_dir {C} (ev : wevent C) : path :=
  match ev with
  | EvStat gomodPath => removelast gomodPath
  | EvVisit d _ _ => d
  | EvReadDir d => d
  end.


(** *** The aggregated error of [LoadEach] *)

(** The per-package errors, each tagged with the path of its package, in
    the order of the two loops. *)
Definition tagged (pkgs : list Package) : list error :=
  flat_map
    (fun pkg => map (fun pe => PackageLoadError (PkgPath pkg) (PackagesError pe)) (Errors pkg))
    pkgs.

Definition isJoined (e : error) : bool :=
  match e with
  | Joined _ => true
  | _ => false
  end.

(** What the [errors.Is]/[errors.As] walk of [e] passes through, the join
    nodes left out. *)
Definition unjoined (e : error) : list error :=
  filter (fun x => negb (isJoined x)) (unwrap_chain e).

Definition join_step (err : option error) (x : error) : option error :=
  errors_Join [err; Some x].

(** ** Worked example: the scenario of the specification *)

Module Scenario.

Definition gomod : string * Node := ("go.mod", NFile (inr "module m")).
Definition dir_ (entries : list (string * Node)) : Node := NDir noFaults entries.

(** [root/go.mod, root/a/go.mod, root/a/vendor/go.mod, root/b/testdata/go.mod] *)
Definition t : Node :=
  dir_ [ ("a", dir_ [gomod; ("vendor", dir_ [gomod])]);
         ("b", dir_ [("testdata", dir_ [gomod])]);
         gomod ].

Definition root : path := ["root"].

(** [root/go.mod, root/a/go.mod, root/b/go.mod] where listing [root/a]
    fails. *)
Definition unreadable : Node :=
  dir_ [ ("a", NDir (mkFaults None (Some EACCES)) [gomod]);
         ("b", dir_ [gomod]);
         gomod ].

(** [root/go.mod, root/a/go.mod, root/a/x/go.mod, root/b/go.mod] *)
Definition nested : Node :=
  dir_ [ ("a", dir_ [gomod; ("x", dir_ [gomod])]);
         ("b", dir_ [gomod]);
         gomod ].

(** A callback that returns nil and counts its calls. *)
Definition count : path -> nat -> nat * option error := fun _ n => (S n, None).

Definition plain (f : path -> nat -> nat * option error) : @visitor nat Empty_set :=
  user1 f.

(** A vendor directory that is a module with a nested module:
    [go.mod, pkg/go.mod]. *)
Definition vendor_entries : list (string * Node) := [gomod; ("pkg", dir_ [gomod])].

(** [root/go.mod, root/a/go.mod, root/b/go.mod] where [root/a/go.mod] is
    not a module file. *)
Definition broken : Node :=
  dir_ [ ("a", dir_ [("go.mod", NFile (inr "garbage"))]);
         ("b", dir_ [gomod]);
         gomod ].

(** A parser: a manifest is its text, which must begin with [module]. *)
Definition parse : path -> string -> handle -> list error + string :=
  fun _ data _ =>
    if String.prefix "module " data then inr data
    else inl [ErrorString "syntax error"].

(** A loader whose one package is named after the directory it loads. *)
Definition load : Config -> list string -> error + list Package :=
  fun conf _ => inr [mkPackage (String.concat "/" (Dir conf)) []].

Definition undefined_x : packages_Error := mkPackagesError "x.go:3:1" "undefined: x" 3.
Definition unused_y : packages_Error := mkPackagesError "y.go:7:2" "declared and not used: y" 3.

(** A loader whose two packages report one error each. *)
Definition load_broken : Config -> list string -> error + list Package :=
  fun _ _ => inr [mkPackage "m/x" [undefined_x]; mkPackage "m/y" [unused_y]].

Definition failing : Walker := mkWalker false false false None zeroLoadConfig true.

Definition count2 : path -> string -> nat -> nat * option error :=
  fun _ _ n => (S n, None).
Definition count3 : path -> list Package -> nat -> nat * option error :=
  fun _ _ n => (S n, None).
Definition count4 : path -> string -> list Package -> nat -> nat * option error :=
  fun _ _ _ n => (S n, None).

Definition path_eqb (p q : path) : bool :=
  if list_eq_dec string_dec p q then true else false.

(** A callback that returns [signal] at [d] and nil elsewhere, and counts
    its calls. *)
Definition signal_at (signal : error) (d : path) : path -> nat -> nat * option error :=
  fun p n => (S n, if path_eqb p d then Some signal else None).

End Scenario.

(** ** The walk as a derivation *)

Section Derivation.

Context {St C : Type}.
Variable w : Walker.
Variable f : @visitor St C.

(** The loop of [each] over the entries of [dir], on its own. *)
Definition each_entries (dir : path) : list (string * Node) -> M St (wevent C) (option error) :=
  fix loop (entries : list (string * Node)) : M St (wevent C) (option error) :=
    match entries with
    | [] => ret None
    | (name, child) :: rest =>
        if negb (IsDir child) then loop rest
        else if String.prefix "." name || String.prefix "_" name then loop rest
        else if negb (IncludeVendor w) && String.eqb name "vendor" then loop rest
        else if negb (IncludeTestdata w) && String.eqb name "testdata" then loop rest
        else
          err <- each w child (filepath_Join dir name) f ;;
          match err with
          | Some e => ret (Some e)
          | None => loop rest
          end
    end.

Definition outcome : Type := St * list (wevent C) * option error.

(** [each] gets past the [go.mod] test of [dir] and goes on to list it:
    from state [s] it reaches [s1] having done [pre]. *)
Definition enters (node : Node) (dir : path) (s s1 : St) (pre : list (wevent C)) : Prop :=
  let gomodPath := filepath_Join dir "go.mod" in
  (Is (os_Stat_gomod node gomodPath) ErrNotExist = true
   /\ s1 = s /\ pre = [EvStat gomodPath])
  \/
  (os_Stat_gomod node gomodPath = None
   /\ exists inner, f dir s = (s1, inner, None)
                    /\ pre = [EvStat gomodPath; EvVisit dir inner None]).

(** The runs of [each] and of its loop, case by case. *)
Inductive walk : Node -> path -> St -> outcome -> Prop :=
| walk_stat_fail node dir s e :
    os_Stat_gomod node (filepath_Join dir "go.mod") = Some e ->
    errors_Is e ErrNotExist = false ->
    walk node dir s
         (s, [EvStat (filepath_Join dir "go.mod")],
          Some (Wrapf e "statting %s" (filepath_Join dir "go.mod")))
| walk_skip node dir s s1 inner e :
    os_Stat_gomod node (filepath_Join dir "go.mod") = None ->
    f dir s = (s1, inner, Some e) ->
    errors_Is e SkipDir = true ->
    walk node dir s
         (s1, [EvStat (filepath_Join dir "go.mod"); EvVisit dir inner (Some e)], None)
| walk_abort node dir s s1 inner e :
    os_Stat_gomod node (filepath_Join dir "go.mod") = None ->
    f dir s = (s1, inner, Some e) ->
    errors_Is e SkipDir = false ->
    walk node dir s
         (s1, [EvStat (filepath_Join dir "go.mod"); EvVisit dir inner (Some e)],
          Some (Wrapf e "in %s" dir))
| walk_readdir_fail flt entries dir s s1 pre code :
    enters (NDir flt entries) dir s s1 pre ->
    readDirFault flt = Some code ->
    walk (NDir flt entries) dir s
         (s1, pre ++ [EvReadDir dir],
          Some (Wrapf (PathError "open" dir (Errno code)) "reading directory %s" dir))
| walk_descend flt entries dir s s1 pre s2 t r :
    enters (NDir flt entries) dir s s1 pre ->
    readDirFault flt = None ->
    walk_entries dir entries s1 (s2, t, r) ->
    walk (NDir flt entries) dir s (s2, pre ++ EvReadDir dir :: t, r)
with walk_entries : path -> list (string * Node) -> St -> outcome -> Prop :=
| entries_nil dir s :
    walk_entries dir [] s (s, [], None)
| entries_skip dir name child rest s out :
    eligible w name child = false ->
    walk_entries dir rest s out ->
    walk_entries dir ((name, child) :: rest) s out
| entries_stop dir name child rest s s1 t e :
    eligible w name child = true ->
    walk child (filepath_Join dir name) s (s1, t, Some e) ->
    walk_entries dir ((name, child) :: rest) s (s1, t, Some e)
| entries_next dir name child rest s s1 t1 s2 t2 r :
    eligible w name child = true ->
    walk child (filepath_Join dir name) s (s1, t1, None) ->
    walk_entries dir rest s1 (s2, t2, r) ->
    walk_entries dir ((name, child) :: rest) s (s2, t1 ++ t2, r).

Scheme walk_min := Minimality for walk Sort Prop
  with walk_entries_min := Minimality for walk_entries Sort Prop.
Combined Scheme walk_mutind from walk_min, walk_entries_min.

End Derivation.

(** ** The rest of the package *)

(** [l1] is [l2] with some elements left out. *)
Inductive subseq {A : Type} : list A -> list A -> Prop :=
| subseq_nil : subseq [] []
| subseq_skip x l1 l2 : subseq l1 l2 -> subseq l1 (x :: l2)
| subseq_keep x l1 l2 : subseq l1 l2 -> subseq (x :: l1) (x :: l2).

(** The three ways a walk ends with the error [e], each as the last event
    of the trace: a [stat] that fails with something else than not-found, a
    directory listing that fails, a visit that returns an error other than
    the skip-subtree signal. *)
Definition failure_at {C} (tr : list (wevent C)) (e : error) : Prop :=
  (exists before D code,
      code <> ENOENT /\
      tr = before ++ [EvStat (filepath_Join D "go.mod")] /\
      e = Wrapf (PathError "stat" (filepath_Join D "go.mod") (Errno code))
                "statting %s" (filepath_Join D "go.mod"))
  \/
  (exists before D code,
      tr = before ++ [EvReadDir D] /\
      e = Wrapf (PathError "open" D (Errno code)) "reading directory %s" D)
  \/
  (exists before D inner e',
      errors_Is e' SkipDir = false /\
      tr = before ++ [EvVisit D inner (Some e')] /\
      e = Wrapf e' "in %s" D).

Definition isCallback {File} (c : cevent File) : bool :=
  match c with
  | CCallback _ _ _ _ => true
  | _ => false
  end.

(** The calls of the caller's function recorded in a trace, in order. *)
Definition callbacks {File} (tr : list (wevent (cevent File))) : list (cevent File) :=
  flat_map
    (fun ev => match ev with EvVisit _ inner _ => filter isCallback inner | _ => [] end)
    tr.

(** [w] with another [LoadConfig]. *)
Definition with_LoadConfig (w : Walker) (conf : Config) : Walker :=
  mkWalker (IncludeVendor w) (IncludeTestdata w) (ParseLax w) (VersionFixer w)
           conf (FailOnPackageErrors w).

(** [func Each(dir string, f func(string) error) error]: [var w Walker;
    return w.Each(dir, f)]. *)
Definition modules_Each {St C} (node : Node) (dir : path) (f : @visitor St C)
  : M St (wevent C) (option error) :=
  Each zeroWalker node dir f.

Section Package.

Context {St : Type}.
Variable modfile_File : Type.
Variable modfile_Parse : path -> string -> handle -> list error + modfile_File.
Variable modfile_ParseLax : path -> string -> handle -> list error + modfile_File.
Variable packages_Load : Config -> list string -> error + list Package.

Local Abbreviation cev := (cevent modfile_File).

(** [func EachGomod(dir string, f func(string, *modfile.File) error) error] *)
Definition modules_EachGomod (node : Node) (dir : path)
    (f : path -> modfile_File -> M St cev (option error))
  : M St (wevent cev) (option error) :=
  EachGomod modfile_Parse modfile_ParseLax zeroWalker node dir f.

(** [func LoadEach(dir string, f func(string, []*packages.Package) error) error] *)
Definition modules_LoadEach (node : Node) (dir : path)
    (f : path -> list Package -> M St cev (option error))
  : M St (wevent cev) (option error) :=
  LoadEach packages_Load zeroWalker node dir f.

(** [func LoadEachGomod(dir string, f func(string, *modfile.File, []*packages.Package) error) error] *)
Definition modules_LoadEachGomod (node : Node) (dir : path)
    (f : path -> modfile_File -> list Package -> M St cev (option error))
  : M St (wevent cev) (option error) :=
  LoadEachGomod modfile_Parse modfile_ParseLax packages_Load zeroWalker node dir f.

(** The manifest of the directory [D]: its [go.mod] read and parsed as
    [withGomod] does, when both succeed. *)
Definition read_manifest (w : Walker) (fs : FS) (D : path) : option modfile_File :=
  match os_ReadFile fs (filepath_Join D "go.mod") with
  | inl _ => None
  | inr data =>
      match parse_gomod modfile_Parse modfile_ParseLax w (filepath_Join D "go.mod") data with
      | inl _ => None
      | inr mf => Some mf
      end
  end.

End Package.

(** *** The earlier [LoadEach]

    [each.go] also holds the earlier shape of the walker, whose [Walker]
    has the fields [LoadMode] and [LoadTests] in place of [LoadConfig] and
    whose [LoadEach] builds the loader's configuration inside the function
    it passes to [w.Each].  Its [Each] and [each] are those above. *)
Module Earlier.

(** The walker above that walks the same way: [each] reads the two include
    flags only. *)
Definition traversal_of (includeVendor includeTestdata parseLax : bool) (fixer : handle)
  : Walker :=
  mkWalker includeVendor includeTestdata parseLax fixer zeroLoadConfig false.

Record Walker : Type := mkWalker {
  IncludeVendor : bool;
  IncludeTestdata : bool;
  ParseLax : bool;
  VesionFixer : handle;
  LoadMode : Z;
  LoadTests : bool;
  FailOnPackageErrors : bool
}.

Definition traversal (w : Walker) :=
  traversal_of (IncludeVendor w) (IncludeTestdata w) (ParseLax w) (VesionFixer w).

Section Earlier_LoadEach.

Context {St : Type}.
Variable modfile_File : Type.
Variable packages_Load : Config -> list string -> error + list Package.

Local Abbreviation cev := (cevent modfile_File).

(** [&packages.Config{Dir: subdir, Mode: w.LoadMode, Tests: w.LoadTests}] *)
Definition visit_conf (w : Walker) (subdir : path) : Config :=
  mkConfig (LoadMode w) None None subdir None None None None (LoadTests w) None.

(** The loop over the packages and their errors; the format argument, a
    package path, is a path of one component. *)
Definition joinPackageErrors (pkgs : list Package) : option error :=
  fold_left
    (fun err pkg =>
       fold_left
         (fun err pkgErr =>
            errors_Join [err; Some (Wrapf (PackagesError pkgErr) "loading package %s"
                                          [PkgPath pkg])])
         (Errors pkg) err)
    pkgs None.

(** The function literal passed to [w.Each]. *)
Definition loadEach_visit (w : Walker)
    (f : path -> list Package -> M St cev (option error)) : @visitor St cev :=
  fun subdir =>
    let conf := visit_conf w subdir in
    emit (CLoad conf ["./..."]) ;;;
    match packages_Load conf ["./..."] with
    | inl err => ret (Some (Wrapf err "loading packages in %s" subdir))
    | inr pkgs =>
        fl <- (if FailOnPackageErrors w then
                 match joinPackageErrors pkgs with
                 | Some err => ret (Return (Some err))
                 | None => ret Continue
                 end
               else ret Continue) ;;
        match fl with
        | Return r => ret r
        | Continue => f subdir pkgs
        end
    end.

(** [func (w *Walker) LoadEach(dir string, f func(string, []*packages.Package) error) error];
    [loadMode] is computed and not used. *)
Definition LoadEach (w : Walker) (node : Node) (dir : path)
    (f : path -> list Package -> M St cev (option error))
  : M St (wevent cev) (option error) :=
  let loadMode := LoadMode w in
  let loadMode := if (loadMode =? 0)%Z then DefaultLoadMode else loadMode in
  Each (traversal w) node dir (loadEach_visit w f).

End Earlier_LoadEach.

End Earlier.

(** *** More examples *)

Module Examples.

(** A loader that fails. *)
Definition load_fails : Config -> list string -> error + list Package :=
  fun _ _ => inl (ErrorString "go list: exit status 1").

(** A loader whose first package is sound and whose second reports an
    error. *)
Definition load_mixed : Config -> list string -> error + list Package :=
  fun _ _ => inr [mkPackage "m/ok" []; mkPackage "m/x" [Scenario.undefined_x]].

(** An earlier walker with no load mode set, that loads tests. *)
Definition earlier : Earlier.Walker :=
  Earlier.mkWalker false false false None 0 true false.

(** A callback that records the directories it is called on. *)
Definition record : path -> list path -> list path * option error :=
  fun p l => (l ++ [p], None).




End Examples.

(** * Proofs *)

Section WalkFacts.

Context {St C : Type}.
Variable w : Walker.
Variable f : @visitor St C.

(** *** Every run of the code is such a derivation *)

Lemma Node_nested_ind (P : Node -> Prop) :
  (forall data, P (NFile data)) ->
  (forall flt entries, Forall (fun ne => P (snd ne)) entries -> P (NDir flt entries)) ->
  forall node, P node.
Proof.
  intros HF HD.
  fix IH 1.
  intros [data | flt entries].
  - apply HF.
  - apply HD.
    induction entries as [| [name child] rest IHrest].
    + constructor.
    + constructor; [ exact (IH child) | exact IHrest ].
Qed.

Lemma each_entries_cons dir name child rest s :
  each_entries w f dir ((name, child) :: rest) s =
  if eligible w name child then
    (err <- each w child (filepath_Join dir name) f ;;
     match err with
     | Some e => ret (Some e)
     | None => each_entries w f dir rest
     end) s
  else each_entries w f dir rest s.
Proof.
  unfold eligible, allowed_name. simpl.
  destruct (IsDir child); simpl; [ | reflexivity ].
  destruct (String.prefix "." name || String.prefix "_" name); simpl; [ reflexivity | ].
  destruct (negb (IncludeVendor w) && String.eqb name "vendor"); simpl; [ reflexivity | ].
  destruct (negb (IncludeTestdata w) && String.eqb name "testdata"); reflexivity.
Qed.

Lemma each_entries_walk entries :
  Forall (fun ne => forall dir s, walk w f (snd ne) dir s (each w (snd ne) dir f s)) entries ->
  forall dir s, walk_entries w f dir entries s (each_entries w f dir entries s).
Proof.
  induction 1 as [| [name child] rest Hchild _ IH]; intros dir s.
  - apply entries_nil.
  - rewrite each_entries_cons.
    destruct (eligible w name child) eqn:El.
    + simpl in Hchild. specialize (Hchild (filepath_Join dir name) s).
      unfold bind.
      destruct (each w child (filepath_Join dir name) f s) as [[s1 t1] [e |]].
      * unfold ret. rewrite app_nil_r. now apply entries_stop.
      * specialize (IH dir s1).
        destruct (each_entries w f dir rest s1) as [[s2 t2] r].
        now apply entries_next with s1.
    + now apply entries_skip.
Qed.

Lemma each_NDir flt entries dir s :
  each w (NDir flt entries) dir f s =
  let gomodPath := filepath_Join dir "go.mod" in
  let listing (s1 : St) (pre : list (wevent C)) : outcome :=
    match readDirFault flt with
    | Some code =>
        (s1, pre ++ [EvReadDir dir],
         Some (Wrapf (PathError "open" dir (Errno code)) "reading directory %s" dir))
    | None =>
        let '(s2, t, r) := each_entries w f dir entries s1 in
        (s2, pre ++ EvReadDir dir :: t, r)
    end in
  match os_Stat_gomod (NDir flt entries) gomodPath with
  | Some e =>
      if errors_Is e ErrNotExist then listing s [EvStat gomodPath]
      else (s, [EvStat gomodPath], Some (Wrapf e "statting %s" gomodPath))
  | None =>
      let '(s1, inner, r) := f dir s in
      match r with
      | Some e =>
          if errors_Is e SkipDir
          then (s1, [EvStat gomodPath; EvVisit dir inner r], None)
          else (s1, [EvStat gomodPath; EvVisit dir inner r], Some (Wrapf e "in %s" dir))
      | None => listing s1 [EvStat gomodPath; EvVisit dir inner None]
      end
  end.
Proof.
  cbv zeta.
  change (each w (NDir flt entries) dir f s) with
    ((emit (EvStat (filepath_Join dir "go.mod")) ;;;
      fl <- (if Is (os_Stat_gomod (NDir flt entries) (filepath_Join dir "go.mod")) ErrNotExist
             then ret Continue
             else
               match os_Stat_gomod (NDir flt entries) (filepath_Join dir "go.mod") with
               | Some e => ret (Return (Some (Wrapf e "statting %s" (filepath_Join dir "go.mod"))))
               | None =>
                   err <- call f dir ;;
                   if Is err SkipDir then ret (Return None)
                   else
                     match err with
                     | Some e => ret (Return (Some (Wrapf e "in %s" dir)))
                     | None => ret Continue
                     end
               end) ;;
      match fl with
      | Return r => ret r
      | Continue =>
          emit (EvReadDir dir) ;;;
          match readDirFault flt with
          | Some code =>
              ret (Some (Wrapf (PathError "open" dir (Errno code))
                               "reading directory %s" dir))
          | None => each_entries w f dir entries
          end
      end) s).
  destruct (os_Stat_gomod (NDir flt entries) (filepath_Join dir "go.mod")) as [e |].
  - unfold Is. destruct (errors_Is e ErrNotExist).
    + unfold bind, emit, ret. simpl.
      destruct (readDirFault flt); [ reflexivity | ].
      destruct (each_entries w f dir entries s) as [[s2 t] r]. reflexivity.
    + reflexivity.
  - unfold bind, emit, ret, call. simpl.
    destruct (f dir s) as [[s1 inner] [e |]]; simpl.
    + destruct (errors_Is e SkipDir); reflexivity.
    + destruct (readDirFault flt); simpl.
      * reflexivity.
      * destruct (each_entries w f dir entries s1) as [[s2 t] r]. reflexivity.
Qed.

Lemma each_walk node :
  forall dir s, walk w f node dir s (each w node dir f s).
Proof.
  induction node as [data | flt entries IH] using Node_nested_ind; intros dir s.
  - apply (walk_stat_fail w f (NFile data) dir s
             (PathError "stat" (filepath_Join dir "go.mod") (Errno ENOTDIR)));
      reflexivity.
  - rewrite each_NDir. cbv zeta.
    pose proof (each_entries_walk entries IH dir) as Hentries.
    destruct (os_Stat_gomod (NDir flt entries) (filepath_Join dir "go.mod")) as [e |] eqn:Hstat.
    + destruct (errors_Is e ErrNotExist) eqn:Hne.
      * assert (Hin : enters f (NDir flt entries) dir s s [EvStat (filepath_Join dir "go.mod")]).
        { left. rewrite Hstat. simpl. auto. }
        destruct (readDirFault flt) as [e' |] eqn:Hrd.
        -- now apply walk_readdir_fail.
        -- specialize (Hentries s).
           destruct (each_entries w f dir entries s) as [[s2 t] r].
           now apply walk_descend with s.
      * now apply walk_stat_fail.
    + destruct (f dir s) as [[s1 inner] [e |]] eqn:Hf.
      * destruct (errors_Is e SkipDir) eqn:Hskip.
        -- now apply walk_skip.
        -- now apply walk_abort.
      * assert (Hin : enters f (NDir flt entries) dir s s1
                        [EvStat (filepath_Join dir "go.mod"); EvVisit dir inner None]).
        { right. split; [ exact Hstat | ]. exists inner. auto. }
        destruct (readDirFault flt) as [e' |] eqn:Hrd.
        -- now apply walk_readdir_fail.
        -- specialize (Hentries s1).
           destruct (each_entries w f dir entries s1) as [[s2 t] r].
           now apply walk_descend with s1.
Qed.


(** *** Where the walk goes *)

Lemma within_refl dir : within w dir dir.
Proof. exists []. now rewrite app_nil_r. Qed.

Lemma within_entries_within dir entries p :
  within_entries w dir entries p -> within w dir p.
Proof.
  intros (name & child & suffix & _ & El & -> & Hs).
  exists (name :: suffix). split; [ reflexivity | ].
  constructor; [ | exact Hs ].
  unfold eligible in El. now apply andb_true_iff in El.
Qed.

Lemma within_child dir name child rest p :
  eligible w name child = true ->
  within w (filepath_Join dir name) p ->
  within_entries w dir ((name, child) :: rest) p.
Proof.
  intros El (suffix & -> & Hs).
  exists name, child, suffix. repeat split; auto.
  - now left.
  - unfold filepath_Join. now rewrite <- app_assoc.
Qed.

Lemma within_entries_cons dir ne rest p :
  within_entries w dir rest p -> within_entries w dir (ne :: rest) p.
Proof.
  intros (name & child & suffix & Hin & H).
  exists name, child, suffix. split; [ now right | exact H ].
Qed.

Lemma ev_dir_stat dir : ev_dir (@EvStat C (filepath_Join dir "go.mod")) = dir.
Proof. unfold ev_dir, filepath_Join. apply removelast_last. Qed.

Lemma enters_pre node dir s s1 pre :
  enters f node dir s s1 pre ->
  Forall (fun ev => ev_dir ev = dir /\ forall D inner e, ev <> EvVisit D inner (Some e)) pre.
Proof.
  intros [(_ & _ & ->) | (_ & inner & _ & ->)];
    repeat constructor; try apply ev_dir_stat; try reflexivity; intros; discriminate.
Qed.

Lemma walk_within :
  (forall node dir s out, walk w f node dir s out ->
     Forall (fun ev => within w dir (ev_dir ev)) (trace_of out))
  /\
  (forall dir entries s out, walk_entries w f dir entries s out ->
     Forall (fun ev => within_entries w dir entries (ev_dir ev)) (trace_of out)).
Proof.
  apply walk_mutind; unfold trace_of; simpl; intros.
  - repeat constructor. rewrite ev_dir_stat. apply within_refl.
  - repeat constructor; [ rewrite ev_dir_stat | ]; apply within_refl.
  - repeat constructor; [ rewrite ev_dir_stat | ]; apply within_refl.
  - apply Forall_app. split.
    + apply enters_pre in H. eapply Forall_impl; [ | exact H ].
      intros ev [-> _]. apply within_refl.
    + repeat constructor. apply within_refl.
  - apply Forall_app. split.
    + apply enters_pre in H. eapply Forall_impl; [ | exact H ].
      intros ev [-> _]. apply within_refl.
    + constructor; [ apply within_refl | ].
      eapply Forall_impl; [ | exact H2 ].
      intros ev. apply within_entries_within.
  - constructor.
  - eapply Forall_impl; [ | exact H1 ]. intros ev. apply within_entries_cons.
  - eapply Forall_impl; [ | exact H1 ]. intros ev. now apply within_child.
  - apply Forall_app. split.
    + eapply Forall_impl; [ | exact H1 ]. intros ev. now apply within_child.
    + eapply Forall_impl; [ | exact H3 ]. intros ev. apply within_entries_cons.
Qed.

(** Every recorded visit is a call of [f]. *)
Lemma walk_visits_are_calls :
  (forall node dir s out, walk w f node dir s out ->
     forall D inner r, In (EvVisit D inner r) (trace_of out) ->
     exists s0 s1, f D s0 = (s1, inner, r))
  /\
  (forall dir entries s out, walk_entries w f dir entries s out ->
     forall D inner r, In (EvVisit D inner r) (trace_of out) ->
     exists s0 s1, f D s0 = (s1, inner, r)).
Proof.
  assert (Hpre : forall node dir s s1 pre D inner r,
             enters f node dir s s1 pre -> In (EvVisit D inner r) pre ->
             exists s0 s1, f D s0 = (s1, inner, r)).
  { intros node dir s s1 pre D inner r [(_ & _ & ->) | (_ & inner' & Hf & ->)] Hin.
    - destruct Hin as [Hin | []]. discriminate.
    - destruct Hin as [Hin | [Hin | []]]; [ discriminate | ].
      inversion Hin; subst. eauto. }
  apply walk_mutind; unfold trace_of; simpl; intros.
  - destruct H1 as [H1 | []]. discriminate.
  - destruct H2 as [H2 | [H2 | []]]; [ discriminate | ]. inversion H2; subst. eauto.
  - destruct H2 as [H2 | [H2 | []]]; [ discriminate | ]. inversion H2; subst. eauto.
  - apply in_app_or in H1. destruct H1 as [H1 | [H1 | []]]; [ eauto | discriminate ].
  - apply in_app_or in H3. destruct H3 as [H3 | [H3 | H3]]; [ eauto | discriminate | eauto ].
  - contradiction.
  - eauto.
  - eauto.
  - apply in_app_or in H4. destruct H4; eauto.
Qed.

(** A visit that returns an error other than the skip-subtree signal is the
    last thing the walk w f does, and the walk w f returns that error with the
    directory as context. *)
Lemma walk_abort_last :
  (forall node dir s out, walk w f node dir s out ->
     forall D inner e, In (EvVisit D inner (Some e)) (trace_of out) ->
     errors_Is e SkipDir = false ->
     result_of out = Some (Wrapf e "in %s" D) /\
     exists before, trace_of out = before ++ [EvVisit D inner (Some e)])
  /\
  (forall dir entries s out, walk_entries w f dir entries s out ->
     forall D inner e, In (EvVisit D inner (Some e)) (trace_of out) ->
     errors_Is e SkipDir = false ->
     result_of out = Some (Wrapf e "in %s" D) /\
     exists before, trace_of out = before ++ [EvVisit D inner (Some e)]).
Proof.
  assert (Hpre : forall node dir s s1 pre D inner e,
             enters f node dir s s1 pre -> ~ In (EvVisit D inner (Some e)) pre).
  { intros node dir s s1 pre D inner e Hen Hin.
    apply enters_pre in Hen. rewrite Forall_forall in Hen.
    destruct (Hen _ Hin) as [_ Hne]. now apply (Hne D inner e). }
  apply walk_mutind; unfold trace_of, result_of; simpl; intros.
  - destruct H1 as [H1 | []]. discriminate.
  - destruct H2 as [H2 | [H2 | []]]; [ discriminate | ].
    inversion H2; subst. congruence.
  - destruct H2 as [H2 | [H2 | []]]; [ discriminate | ].
    inversion H2; subst. split; [ reflexivity | ].
    now exists [EvStat (filepath_Join D "go.mod")].
  - apply in_app_or in H1. destruct H1 as [H1 | [H1 | []]]; [ | discriminate ].
    now apply Hpre with (1 := H) in H1.
  - apply in_app_or in H3. destruct H3 as [H3 | [H3 | H3]]; [ | discriminate | ].
    + now apply Hpre with (1 := H) in H3.
    + destruct (H2 _ _ _ H3 H4) as [Hr [before Ht]].
      split; [ exact Hr | ].
      exists (pre ++ EvReadDir dir :: before). rewrite Ht.
      now rewrite <- app_assoc.
  - contradiction.
  - eauto.
  - eauto.
  - apply in_app_or in H4. destruct H4 as [H4 | H4].
    + destruct (H1 _ _ _ H4 H5) as [Hr _]. discriminate.
    + destruct (H3 _ _ _ H4 H5) as [Hr [before Ht]].
      split; [ exact Hr | ].
      exists (t1 ++ before). rewrite Ht. now rewrite app_assoc.
Qed.

End WalkFacts.

(** ** Facts about the directories the walk is compared with *)

Section Roots.

Variable w : Walker.

Lemma roots_NDir flt entries dir :
  roots w (NDir flt entries) dir =
  (if has_gomod entries then [dir] else []) ++ roots_entries w dir entries.
Proof. reflexivity. Qed.

Lemma healthy_NDir flt entries :
  healthy w (NDir flt entries) = true ->
  statFault flt = None /\ readDirFault flt = None /\ healthy_entries w entries = true.
Proof.
  change (healthy w (NDir flt entries)) with
    (is_none (statFault flt) && is_none (readDirFault flt) && healthy_entries w entries).
  intros H. apply andb_true_iff in H. destruct H as [H H3].
  apply andb_true_iff in H. destruct H as [H1 H2].
  destruct (statFault flt); [ discriminate | ].
  destruct (readDirFault flt); [ discriminate | ]. auto.
Qed.

Lemma well_formed_NDir flt entries :
  well_formed (NDir flt entries) = true ->
  distinct (map fst entries) = true /\ well_formed_entries entries = true.
Proof.
  change (well_formed (NDir flt entries)) with
    (distinct (map fst entries) && well_formed_entries entries).
  intros H. now apply andb_true_iff in H.
Qed.

Lemma distinct_head name (child : Node) rest child' :
  distinct (map fst ((name, child) :: rest)) = true -> ~ In (name, child') rest.
Proof.
  simpl. intros H Hin. apply andb_true_iff in H. destruct H as [H _].
  apply negb_true_iff in H.
  assert (Hex : existsb (String.eqb name) (map fst rest) = true).
  { apply existsb_exists. exists name. split; [ | apply String.eqb_refl ].
    apply in_map_iff. now exists (name, child'). }
  congruence.
Qed.

(** Two different entries of one directory span disjoint branches. *)
Lemma branches_apart (dir : path) n1 n2 (s1 s2 : path) :
  dir ++ n1 :: s1 = dir ++ n2 :: s2 -> n1 = n2.
Proof. intros H. apply app_inv_head in H. now inversion H. Qed.

Lemma not_below_itself (dir : path) name (suffix : path) : dir <> dir ++ name :: suffix.
Proof.
  intros H. apply (f_equal (@List.length string)) in H.
  rewrite length_app in H. simpl in H. lia.
Qed.

Lemma entries_apart dir name (child : Node) rest p :
  distinct (map fst ((name, child) :: rest)) = true ->
  within w (filepath_Join dir name) p ->
  within_entries w dir rest p -> False.
Proof.
  intros Hd (suffix & -> & _) (name' & child' & suffix' & Hin & _ & Heq & _).
  unfold filepath_Join in Heq. rewrite <- app_assoc in Heq. simpl in Heq.
  apply branches_apart in Heq. subst name'.
  eapply distinct_head; eassumption.
Qed.

Lemma roots_within_both :
  forall node,
    (forall dir p, In p (roots w node dir) -> within w dir p).
Proof.
  induction node as [data | flt entries IH] using Node_nested_ind; intros dir p Hin.
  - contradiction.
  - rewrite roots_NDir in Hin. apply in_app_or in Hin. destruct Hin as [Hin | Hin].
    + destruct (has_gomod entries); [ | contradiction ].
      destruct Hin as [<- | []]. apply within_refl.
    + apply within_entries_within with entries.
      clear flt. induction IH as [| [name child] rest Hchild _ IHrest]; [ contradiction | ].
      simpl in Hin. apply in_app_or in Hin. destruct Hin as [Hin | Hin].
      * destruct (eligible w name child) eqn:El; [ | contradiction ].
        apply within_child; [ exact El | ]. now apply Hchild.
      * apply within_entries_cons. now apply IHrest.
Qed.

Lemma roots_entries_within dir entries p :
  In p (roots_entries w dir entries) -> within_entries w dir entries p.
Proof.
  induction entries as [| [name child] rest IH]; [ contradiction | ].
  simpl. intros Hin. apply in_app_or in Hin. destruct Hin as [Hin | Hin].
  - destruct (eligible w name child) eqn:El; [ | contradiction ].
    apply within_child; [ exact El | ]. now apply roots_within_both with child.
  - apply within_entries_cons. now apply IH.
Qed.

Lemma within_entries_not_dir dir entries : ~ within_entries w dir entries dir.
Proof.
  intros (name & child & suffix & _ & _ & Heq & _). now apply not_below_itself in Heq.
Qed.

Lemma roots_NoDup node :
  well_formed node = true -> forall dir, NoDup (roots w node dir).
Proof.
  induction node as [data | flt entries IH] using Node_nested_ind; intros Hwf dir.
  - constructor.
  - rewrite roots_NDir. apply well_formed_NDir in Hwf. destruct Hwf as [Hd Hwf].
    apply NoDup_app.
    + destruct (has_gomod entries); repeat constructor. intros [].
    + clear flt. induction IH as [| [name child] rest Hchild _ IHrest]; [ constructor | ].
      simpl in Hwf. apply andb_true_iff in Hwf. destruct Hwf as [Hwc Hwr].
      assert (Hd' : distinct (map fst rest) = true).
      { simpl in Hd. now apply andb_true_iff in Hd. }
      simpl. apply NoDup_app.
      * destruct (eligible w name child); [ now apply Hchild | constructor ].
      * now apply IHrest.
      * intros p Hp Hq. destruct (eligible w name child); [ | contradiction ].
        apply roots_within_both in Hp. apply roots_entries_within in Hq.
        eapply entries_apart; eassumption.
    + intros p Hp Hq. destruct (has_gomod entries); [ | contradiction ].
      destruct Hp as [<- | []]. apply roots_entries_within in Hq.
      now apply within_entries_not_dir in Hq.
Qed.

Lemma within_descendant dir p : within w dir p -> descendant dir p.
Proof. intros (suffix & -> & _). now exists suffix. Qed.

End Roots.

(** ** Paths of different branches *)

Lemma strict_descendant_descendant (d p : path) : strict_descendant d p -> descendant d p.
Proof. intros (suffix & _ & ->). now exists suffix. Qed.

Lemma not_strict_descendant_self (d : path) : ~ strict_descendant d d.
Proof.
  intros (suffix & Hne & Heq). apply Hne.
  rewrite <- (app_nil_r d) in Heq at 1. now apply app_inv_head in Heq.
Qed.


Lemma within_entries_not_above w dir entries D :
  within_entries w dir entries D -> ~ strict_descendant D dir.
Proof.
  intros (name & child & suffix & _ & _ & -> & _) (x & _ & Heq).
  rewrite <- app_assoc in Heq. simpl in Heq. now apply not_below_itself in Heq.
Qed.

(** Nothing in the branch of one entry lies at or below anything in the
    branch of a later entry of the same directory, nor the other way. *)
Lemma branches_unrelated w dir name (child : Node) rest a b :
  distinct (map fst ((name, child) :: rest)) = true ->
  within w (filepath_Join dir name) a ->
  within_entries w dir rest b ->
  ~ descendant a b /\ ~ descendant b a.
Proof.
  intros Hd (sa & -> & _) (name' & child' & sb & Hin & _ & -> & _).
  assert (Hne : name' <> name).
  { intros ->. eapply distinct_head; eassumption. }
  unfold filepath_Join. split; intros (x & Heq); rewrite <- !app_assoc in Heq; simpl in Heq;
    apply branches_apart in Heq; congruence.
Qed.

(** ** The order of [roots] *)

Lemma split_app {A} (X Y l1 l2 : list A) (q : A) :
  X ++ Y = l1 ++ q :: l2 ->
  (exists l', X = l1 ++ q :: l' /\ l2 = l' ++ Y) \/
  (exists l', l1 = X ++ l' /\ Y = l' ++ q :: l2).
Proof.
  revert l1. induction X as [| x X' IH]; intros l1 H.
  - right. now exists l1.
  - destruct l1 as [| a l1'].
    + left. simpl in H. inversion H; subst. now exists X'.
    + simpl in H. inversion H; subst.
      destruct (IH l1' H2) as [(l' & -> & ->) | (l' & -> & ->)].
      * left. now exists l'.
      * right. now exists l'.
Qed.

(** In [roots] a directory comes before everything strictly below it. *)
Lemma roots_parents_first w node :
  well_formed node = true ->
  forall dir l1 q l2,
    roots w node dir = l1 ++ q :: l2 ->
    forall p, In p l1 -> ~ strict_descendant q p.
Proof.
  induction node as [data | flt entries IH] using Node_nested_ind;
    intros Hwf dir l1 q l2 Heq p Hp.
  - destruct l1; discriminate.
  - rewrite roots_NDir in Heq. apply well_formed_NDir in Hwf. destruct Hwf as [Hd Hwf].
    apply split_app in Heq. destruct Heq as [(l' & Hhd & _) | (l' & -> & Hre)].
    + destruct (has_gomod entries); destruct l1; try discriminate; try contradiction.
      inversion Hhd. destruct l1; discriminate.
    + apply in_app_or in Hp. destruct Hp as [Hp | Hp].
      * destruct (has_gomod entries); [ | contradiction ]. destruct Hp as [<- | []].
        apply within_entries_not_above with w entries.
        apply roots_entries_within. rewrite Hre. apply in_or_app. right. now left.
      * clear flt. revert l' q l2 Hre p Hp.
        induction IH as [| [name child] rest Hchild _ IHrest]; intros l' q l2 Hre p Hp.
        { destruct l'; discriminate. }
        simpl in Hwf. apply andb_true_iff in Hwf. destruct Hwf as [Hwc Hwr].
        assert (Hd' : distinct (map fst rest) = true).
        { simpl in Hd. now apply andb_true_iff in Hd. }
        simpl in Hre. apply split_app in Hre.
        destruct Hre as [(l0 & HA & _) | (l0 & -> & HB)].
        -- destruct (eligible w name child); [ | destruct l'; discriminate ].
           now apply (Hchild Hwc _ _ _ _ HA).
        -- apply in_app_or in Hp. destruct Hp as [Hp | Hp].
           ++ destruct (eligible w name child); [ | contradiction ].
              apply roots_within_both in Hp.
              assert (Hq : within_entries w dir rest q).
              { apply roots_entries_within. rewrite HB. apply in_or_app. right. now left. }
              intros Hsd. apply strict_descendant_descendant in Hsd.
              now destruct (branches_unrelated w dir name child rest _ _ Hd Hp Hq).
           ++ now apply (IHrest Hd' Hwr l0 q l2 HB).
Qed.

(** ** The plain traversal with a callback that always returns nil *)

Lemma visited_app {C} (t1 t2 : list (wevent C)) :
  visited (t1 ++ t2) = visited t1 ++ visited t2.
Proof. apply flat_map_app. Qed.

Lemma visited_iff {C} (tr : list (wevent C)) p :
  In p (visited tr) <-> exists inner r, In (EvVisit p inner r) tr.
Proof.
  unfold visited. rewrite in_flat_map. split.
  - intros ([gp | d inner r | d] & Hin & Hp); try contradiction.
    destruct Hp as [<- | []]. eauto.
  - intros (inner & r & Hin). exists (EvVisit p inner r). split; [ exact Hin | now left ].
Qed.

Lemma stat_healthy flt entries gomodPath :
  statFault flt = None ->
  os_Stat_gomod (NDir flt entries) gomodPath =
  if has_gomod entries then None else Some (PathError "stat" gomodPath (Errno ENOENT)).
Proof. intros H. simpl. now rewrite H. Qed.

Lemma Each_eq {St C} w node dir (f : @visitor St C) s :
  Each w node dir f s =
  (state_of (each w node dir f s), trace_of (each w node dir f s),
   if Is (result_of (each w node dir f s)) SkipAll then None
   else result_of (each w node dir f s)).
Proof.
  unfold Each, bind, state_of, trace_of, result_of.
  destruct (each w node dir f s) as [[s1 t] r]. simpl.
  destruct (Is r SkipAll); unfold ret; now rewrite app_nil_r.
Qed.

Section Plain.

Context {St C : Type}.
Variable w : Walker.
Variable f : @visitor St C.
Hypothesis f_nil : forall p s, result_of (f p s) = None.

Lemma enters_healthy flt entries dir s s1 pre :
  statFault flt = None ->
  enters f (NDir flt entries) dir s s1 pre ->
  visited pre = if has_gomod entries then [dir] else [].
Proof.
  intros Hs Hen. unfold enters in Hen. rewrite (stat_healthy _ entries _ Hs) in Hen.
  destruct (has_gomod entries).
  - destruct Hen as [(Hen & _) | (_ & inner & _ & ->)]; [ discriminate | reflexivity ].
  - destruct Hen as [(_ & _ & ->) | (Hen & _)]; [ reflexivity | discriminate ].
Qed.

Lemma walk_all_roots :
  (forall node dir s out, walk w f node dir s out ->
     healthy w node = true ->
     result_of out = None /\ visited (trace_of out) = roots w node dir)
  /\
  (forall dir entries s out, walk_entries w f dir entries s out ->
     healthy_entries w entries = true ->
     result_of out = None /\ visited (trace_of out) = roots_entries w dir entries).
Proof.
  apply walk_mutind; unfold trace_of, result_of; simpl fst; simpl snd; intros.
  - exfalso. destruct node as [data | flt entries]; [ discriminate | ].
    apply healthy_NDir in H1. destruct H1 as (Hs & _ & _).
    rewrite (stat_healthy _ entries _ Hs) in H.
    destruct (has_gomod entries); [ discriminate | ].
    inversion H; subst. discriminate.
  - exfalso. specialize (f_nil dir s). rewrite H0 in f_nil. discriminate.
  - exfalso. specialize (f_nil dir s). rewrite H0 in f_nil. discriminate.
  - exfalso. apply healthy_NDir in H1. destruct H1 as (_ & Hr & _). congruence.
  - apply healthy_NDir in H3. destruct H3 as (Hs & _ & He).
    destruct (H2 He) as [Hr Hv]. split; [ exact Hr | ].
    rewrite visited_app, roots_NDir. simpl in Hv. simpl. rewrite Hv.
    now rewrite (enters_healthy _ _ _ _ _ _ Hs H).
  - auto.
  - simpl in H2. rewrite H in H2. simpl. rewrite H. now apply H1.
  - exfalso. simpl in H2. rewrite H in H2. apply andb_true_iff in H2.
    destruct H2 as [H2 _]. destruct (H1 H2). discriminate.
  - simpl in H4. rewrite H in H4. apply andb_true_iff in H4. destruct H4 as [Hc Hrest].
    destruct (H1 Hc) as [_ Hv1]. destruct (H3 Hrest) as [Hr Hv2].
    split; [ exact Hr | ].
    rewrite visited_app. simpl. rewrite H. simpl in Hv1, Hv2. now rewrite Hv1, Hv2.
Qed.

End Plain.

(** C1 (as amended).  On a tree where no [stat] and no directory listing
    fails, [Walker.Each] with a callback that always returns nil calls it
    once on every directory that has a [go.mod] entry and is reached from
    the root through subdirectories the name rules allow, and on nothing
    else: the calls are exactly [roots], parents before children and
    children in listing order, so there are as many calls as such
    directories, no path occurs twice, every path is the root or below it,
    no directory is called after one strictly below it, and [Each] returns
    nil. *)
Theorem Each_visits_allowed_roots :
  forall (St C : Type) (w : Walker) (node : Node) (dir : path)
         (f : @visitor St C) (s : St),
    healthy w node = true ->
    well_formed node = true ->
    (forall p s0, result_of (f p s0) = None) ->
    let out := Each w node dir f s in
    result_of out = None /\
    visited (trace_of out) = roots w node dir /\
    List.length (visited (trace_of out)) = List.length (roots w node dir) /\
    NoDup (visited (trace_of out)) /\
    Forall (descendant dir) (visited (trace_of out)) /\
    (forall l1 q l2,
        visited (trace_of out) = l1 ++ q :: l2 ->
        forall p, In p l1 -> ~ strict_descendant q p).
Proof.
  intros St C w node dir f s Hh Hwf Hnil out. subst out.
  destruct (proj1 (walk_all_roots w f Hnil) _ _ _ _ (each_walk w f node dir s) Hh)
    as [Hr Hv].
  rewrite Each_eq. unfold trace_of, result_of in *. simpl fst. simpl snd.
  rewrite Hr, Hv. simpl. repeat split.
  - now apply roots_NoDup.
  - apply Forall_forall. intros p Hp.
    apply within_descendant with w. now apply roots_within_both with node.
  - intros l1 q l2 Heq p Hp. now apply (roots_parents_first w node Hwf dir l1 q l2 Heq).
Qed.

(** C1, as stated, fails.  In the scenario of the specification four
    directories hold a [go.mod], and the callback, which always returns nil,
    is called on two of them: the walk keeps out of [vendor] and [testdata].
    In a tree of three such directories where one listing fails the callback
    is called on two and the walk ends with the error. *)
Lemma Each_leaves_out_manifest_dirs :
  (manifest_dirs Scenario.t Scenario.root =
     [["root"]; ["root"; "a"]; ["root"; "a"; "vendor"]; ["root"; "b"; "testdata"]]
   /\ visited (trace_of (Each zeroWalker Scenario.t Scenario.root
                              (Scenario.plain Scenario.count) 0))
      = [["root"]; ["root"; "a"]]
   /\ List.length (visited (trace_of (Each zeroWalker Scenario.t Scenario.root
                                           (Scenario.plain Scenario.count) 0)))
      <> List.length (manifest_dirs Scenario.t Scenario.root))
  /\
  (manifest_dirs Scenario.unreadable Scenario.root =
     [["root"]; ["root"; "a"]; ["root"; "b"]]
   /\ visited (trace_of (Each zeroWalker Scenario.unreadable Scenario.root
                              (Scenario.plain Scenario.count) 0))
      = [["root"]; ["root"; "a"]]
   /\ result_of (Each zeroWalker Scenario.unreadable Scenario.root
                      (Scenario.plain Scenario.count) 0)
      = Some (Wrapf (PathError "open" ["root"; "a"] (Errno EACCES))
                    "reading directory %s" ["root"; "a"])).
Proof.
  split.
  - split; [ reflexivity | ]. split; [ reflexivity | ].
    vm_compute. discriminate.
  - repeat split.
Qed.

Lemma Each_visits_allowed_roots_witness :
  healthy zeroWalker Scenario.t = true
  /\ well_formed Scenario.t = true
  /\ (forall p s0, result_of (Scenario.plain Scenario.count p s0) = None)
  /\ result_of (Each zeroWalker Scenario.t Scenario.root
                     (Scenario.plain Scenario.count) 0) = None
  /\ visited (trace_of (Each zeroWalker Scenario.t Scenario.root
                             (Scenario.plain Scenario.count) 0))
     = roots zeroWalker Scenario.t Scenario.root
  /\ List.length (roots zeroWalker Scenario.t Scenario.root) = 2.
Proof.
  assert (Hh : healthy zeroWalker Scenario.t = true) by reflexivity.
  assert (Hw : well_formed Scenario.t = true) by reflexivity.
  assert (Hn : forall p s0, result_of (Scenario.plain Scenario.count p s0) = None)
    by (intros; reflexivity).
  destruct (Each_visits_allowed_roots nat Empty_set zeroWalker Scenario.t Scenario.root
              (Scenario.plain Scenario.count) 0 Hh Hw Hn) as (Hr & Hv & _).
  repeat split; assumption.
Defined.

(** ** The name rules *)

Lemma allowed_name_spec w name :
  allowed_name w name = true ->
  String.prefix "." name = false /\ String.prefix "_" name = false
  /\ (name = "vendor" -> IncludeVendor w = true)
  /\ (name = "testdata" -> IncludeTestdata w = true).
Proof.
  unfold allowed_name. intros H.
  apply andb_true_iff in H. destruct H as [H Ht].
  apply andb_true_iff in H. destruct H as [Hp Hv].
  apply negb_true_iff, orb_false_iff in Hp.
  apply negb_true_iff, andb_false_iff in Hv.
  apply negb_true_iff, andb_false_iff in Ht.
  repeat split; try tauto.
  - intros ->. destruct Hv as [Hv | Hv]; [ | discriminate ].
    now apply negb_false_iff in Hv.
  - intros ->. destruct Ht as [Ht | Ht]; [ | discriminate ].
    now apply negb_false_iff in Ht.
Qed.

(** C4.  Whatever the tree, the configuration and the callback, everything
    [Walker.Each] does (a [stat] of a [go.mod], a call of the callback, a
    directory listing) concerns the root or a directory below it none of
    whose components under the root begins with [.] or [_], is [vendor]
    without [IncludeVendor], or is [testdata] without [IncludeTestdata]. *)
Theorem Each_never_enters_excluded_names :
  forall (St C : Type) (w : Walker) (node : Node) (dir : path)
         (f : @visitor St C) (s : St),
    Forall
      (fun ev =>
         exists suffix,
           ev_dir ev = dir ++ suffix /\
           Forall
             (fun name =>
                String.prefix "." name = false /\ String.prefix "_" name = false
                /\ (name = "vendor" -> IncludeVendor w = true)
                /\ (name = "testdata" -> IncludeTestdata w = true))
             suffix)
      (trace_of (Each w node dir f s)).
Proof.
  intros St C w node dir f s.
  rewrite Each_eq. unfold trace_of at 1. simpl fst. simpl snd.
  pose proof (proj1 (walk_within w f) _ _ _ _ (each_walk w f node dir s)) as H.
  eapply Forall_impl; [ | exact H ].
  intros ev (suffix & Heq & Hs). exists suffix. split; [ exact Heq | ].
  eapply Forall_impl; [ | exact Hs ].
  intros name. apply allowed_name_spec.
Qed.

(** ** The stop-all signal *)

(** C3.  If the callback returns [filepath.SkipAll] at some directory, that
    call is the last thing the traversal does and [Walker.Each] returns
    nil. *)
Theorem Each_SkipAll_ends_the_walk_cleanly :
  forall (St C : Type) (w : Walker) (node : Node) (dir : path)
         (f : @visitor St C) (s : St) (D : path) (inner : list C),
    In (EvVisit D inner (Some (Sentinel SkipAll))) (trace_of (Each w node dir f s)) ->
    result_of (Each w node dir f s) = None /\
    exists before,
      trace_of (Each w node dir f s) = before ++ [EvVisit D inner (Some (Sentinel SkipAll))].
Proof.
  intros St C w node dir f s D inner.
  rewrite Each_eq. unfold trace_of at 1 2, result_of at 1. simpl fst. simpl snd.
  intros Hin.
  destruct (proj1 (walk_abort_last w f) _ _ _ _ (each_walk w f node dir s)
              D inner (Sentinel SkipAll) Hin eq_refl) as [Hr Ht].
  split; [ | exact Ht ].
  rewrite Hr. reflexivity.
Qed.

Lemma Each_SkipAll_ends_the_walk_cleanly_witness :
  In (EvVisit ["root"; "a"] [] (Some (Sentinel SkipAll)))
     (trace_of (Each zeroWalker Scenario.t Scenario.root
                     (Scenario.plain (Scenario.signal_at SkipAll ["root"; "a"])) 0))
  /\ result_of (Each zeroWalker Scenario.t Scenario.root
                     (Scenario.plain (Scenario.signal_at SkipAll ["root"; "a"])) 0) = None
  /\ exists before,
       trace_of (Each zeroWalker Scenario.t Scenario.root
                      (Scenario.plain (Scenario.signal_at SkipAll ["root"; "a"])) 0)
       = before ++ [EvVisit ["root"; "a"] [] (Some (Sentinel SkipAll))].
Proof.
  assert (Hin : In (EvVisit ["root"; "a"] [] (Some (Sentinel SkipAll)))
                   (trace_of (Each zeroWalker Scenario.t Scenario.root
                      (Scenario.plain (Scenario.signal_at SkipAll ["root"; "a"])) 0))).
  { vm_compute. auto 10. }
  split; [ exact Hin | ].
  exact (Each_SkipAll_ends_the_walk_cleanly nat Empty_set zeroWalker Scenario.t
           Scenario.root (Scenario.plain (Scenario.signal_at SkipAll ["root"; "a"])) 0
           ["root"; "a"] [] Hin).
Defined.

(** ** The skip-subtree signal *)

Section Skip.

Context {St C : Type}.
Variable w : Walker.
Variable f : @visitor St C.

Lemma enters_no_error node dir s s1 pre t D inner e :
  enters f node dir s s1 pre ->
  In (EvVisit D inner (Some e)) (pre ++ EvReadDir dir :: t) ->
  In (EvVisit D inner (Some e)) t.
Proof.
  intros Hen Hin. apply enters_pre in Hen. rewrite Forall_forall in Hen.
  apply in_app_or in Hin. destruct Hin as [Hin | [Hin | Hin]].
  - destruct (Hen _ Hin) as [_ Hne]. now destruct (Hne D inner e).
  - discriminate.
  - exact Hin.
Qed.

(** Once a visit of [D] returned the skip-subtree signal, the walk does
    nothing strictly below [D]. *)
Lemma walk_skip_prunes :
  (forall node dir s out, walk w f node dir s out ->
     well_formed node = true ->
     forall D inner e, In (EvVisit D inner (Some e)) (trace_of out) ->
     errors_Is e SkipDir = true ->
     Forall (fun ev => ~ strict_descendant D (ev_dir ev)) (trace_of out))
  /\
  (forall dir entries s out, walk_entries w f dir entries s out ->
     distinct (map fst entries) = true ->
     well_formed_entries entries = true ->
     forall D inner e, In (EvVisit D inner (Some e)) (trace_of out) ->
     errors_Is e SkipDir = true ->
     Forall (fun ev => ~ strict_descendant D (ev_dir ev)) (trace_of out)).
Proof.
  apply walk_mutind; unfold trace_of; simpl fst; simpl snd.
  - intros node dir s e _ _ _ D inner e0 [Hin | []]. discriminate.
  - intros node dir s s1 inner e _ _ _ _ D inner0 e0 [Hin | [Hin | []]] _;
      [ discriminate | ].
    inversion Hin; subst.
    repeat constructor; [ rewrite ev_dir_stat | ]; apply not_strict_descendant_self.
  - intros node dir s s1 inner e _ _ Hskip _ D inner0 e0 [Hin | [Hin | []]] Hs;
      [ discriminate | ].
    inversion Hin; subst. congruence.
  - intros flt entries dir s s1 pre e Hen _ _ D inner e0 Hin _.
    exfalso. apply in_app_or in Hin. destruct Hin as [Hin | [Hin | []]]; [ | discriminate ].
    apply enters_pre in Hen. rewrite Forall_forall in Hen.
    destruct (Hen _ Hin) as [_ Hne]. now destruct (Hne D inner e0).
  - intros flt entries dir s s1 pre s2 t r Hen _ Hwalk IH Hwf D inner e Hin Hs.
    apply well_formed_NDir in Hwf. destruct Hwf as [Hd Hwf].
    apply (enters_no_error _ _ _ _ _ _ _ _ _ Hen) in Hin.
    assert (HD : within_entries w dir entries D).
    { pose proof (proj2 (walk_within w f) _ _ _ _ Hwalk) as Hw.
      unfold trace_of in Hw. simpl in Hw. rewrite Forall_forall in Hw.
      exact (Hw _ Hin). }
    apply Forall_app. split.
    + apply enters_pre in Hen. eapply Forall_impl; [ | exact Hen ].
      intros ev [-> _]. now apply within_entries_not_above with w entries.
    + constructor.
      * now apply within_entries_not_above with w entries.
      * now apply IH with inner e.
  - intros dir s _ _ D inner e [].
  - intros dir name child rest s out _ _ IH Hd Hwf D inner e Hin Hs.
    simpl in Hd, Hwf. apply andb_true_iff in Hd, Hwf.
    destruct Hd as [_ Hd]. destruct Hwf as [_ Hwf].
    now apply IH with inner e.
  - intros dir name child rest s s1 t e _ _ IH _ Hwf D inner e0 Hin Hs.
    simpl in Hwf. apply andb_true_iff in Hwf. destruct Hwf as [Hwf _].
    now apply IH with inner e0.
  - intros dir name child rest s s1 t1 s2 t2 r _ Hw1 IH1 Hw2 IH2 Hd Hwf D inner e Hin Hs.
    pose proof (proj1 (walk_within w f) _ _ _ _ Hw1) as Hin1.
    pose proof (proj2 (walk_within w f) _ _ _ _ Hw2) as Hin2.
    unfold trace_of in Hin1, Hin2. simpl in Hin1, Hin2.
    assert (Hd' : distinct (map fst rest) = true).
    { simpl in Hd. now apply andb_true_iff in Hd. }
    simpl in Hwf. apply andb_true_iff in Hwf. destruct Hwf as [Hwc Hwr].
    apply in_app_or in Hin. apply Forall_app. destruct Hin as [Hin | Hin].
    + split; [ now apply IH1 with inner e | ].
      assert (HD : within w (filepath_Join dir name) D).
      { rewrite Forall_forall in Hin1. exact (Hin1 _ Hin). }
      eapply Forall_impl; [ | exact Hin2 ].
      intros ev Hev Hsd. apply strict_descendant_descendant in Hsd.
      now destruct (branches_unrelated w dir name child rest _ _ Hd HD Hev).
    + split; [ | now apply IH2 with inner e ].
      assert (HD : within_entries w dir rest D).
      { rewrite Forall_forall in Hin2. exact (Hin2 _ Hin). }
      eapply Forall_impl; [ | exact Hin1 ].
      intros ev Hev Hsd. apply strict_descendant_descendant in Hsd.
      now destruct (branches_unrelated w dir name child rest _ _ Hd Hev HD).
Qed.

End Skip.

Lemma healthy_stat w node gomodPath e :
  healthy w node = true ->
  os_Stat_gomod node gomodPath = Some e -> errors_Is e ErrNotExist = true.
Proof.
  intros Hh Hst. destruct node as [data | flt entries]; [ discriminate | ].
  apply healthy_NDir in Hh. destruct Hh as (Hs & _ & _).
  rewrite (stat_healthy _ entries _ Hs) in Hst.
  destruct (has_gomod entries); [ discriminate | ].
  inversion Hst; subst. reflexivity.
Qed.

Section SkipOnly.

Context {St C : Type}.
Variable w : Walker.
Variable f : @visitor St C.
Hypothesis f_skip_only :
  forall p s e, result_of (f p s) = Some e -> errors_Is e SkipDir = true.


End SkipOnly.




(** ** The root of the traversal *)

Lemma walk_starts_with_stat {St C} w (f : @visitor St C) node dir s out :
  walk w f node dir s out ->
  exists rest, trace_of out = EvStat (filepath_Join dir "go.mod") :: rest.
Proof.
  assert (Hpre : forall node dir s s1 pre,
             enters f node dir s s1 pre ->
             exists rest, pre = EvStat (filepath_Join dir "go.mod") :: rest).
  { intros node0 dir0 s0 s1 pre [(_ & _ & ->) | (_ & inner & _ & ->)]; eauto. }
  intros H. destruct H; unfold trace_of; simpl; eauto.
  - destruct (Hpre _ _ _ _ _ H) as [rest ->]. simpl. eauto.
  - destruct (Hpre _ _ _ _ _ H) as [rest ->]. simpl. eauto.
Qed.

Lemma direct_child_in_roots w dir entries c flt entries' :
  In (c, NDir flt entries') entries ->
  eligible w c (NDir flt entries') = true ->
  has_gomod entries' = true ->
  In (filepath_Join dir c) (roots_entries w dir entries).
Proof.
  intros Hin El Hg.
  induction entries as [| [name child] rest IH]; [ contradiction | ].
  simpl. apply in_or_app. destruct Hin as [Heq | Hin].
  - left. inversion Heq; subst. rewrite El. rewrite roots_NDir, Hg. now left.
  - right. now apply IH.
Qed.

(** C10.  Let [name] be a name the rules exclude ([vendor], [testdata], or
    one that begins with [.] or [_], under the configuration [w]).  As an
    entry of a directory the walk passes it over; as the last component of
    the root passed to [Walker.Each] it is not looked at: the walk tests the
    root for a [go.mod], calls the callback there when the test succeeds,
    and, with a callback that returns nil on a tree without faults, goes on
    to every eligible subdirectory, so that the calls are [roots] of the
    root. *)
Theorem Each_root_is_exempt_from_name_rules :
  forall (St C : Type) (w : Walker) (parent : path) (name : string)
         (flt : Faults) (entries : list (string * Node)) (f : @visitor St C) (s : St),
    allowed_name w name = false ->
    each_entries w f parent [(name, NDir flt entries)] s = (s, [], None)
    /\
    (exists rest,
        trace_of (Each w (NDir flt entries) (filepath_Join parent name) f s) =
        EvStat (filepath_Join (filepath_Join parent name) "go.mod") :: rest)
    /\
    (statFault flt = None -> has_gomod entries = true ->
     exists rest,
       trace_of (Each w (NDir flt entries) (filepath_Join parent name) f s) =
       EvStat (filepath_Join (filepath_Join parent name) "go.mod")
       :: EvVisit (filepath_Join parent name)
                  (trace_of (f (filepath_Join parent name) s))
                  (result_of (f (filepath_Join parent name) s))
       :: rest)
    /\
    (healthy w (NDir flt entries) = true ->
     (forall p s0, result_of (f p s0) = None) ->
     visited (trace_of (Each w (NDir flt entries) (filepath_Join parent name) f s)) =
     roots w (NDir flt entries) (filepath_Join parent name)
     /\
     forall c flt' entries',
       In (c, NDir flt' entries') entries ->
       eligible w c (NDir flt' entries') = true ->
       has_gomod entries' = true ->
       In (filepath_Join (filepath_Join parent name) c)
          (visited (trace_of (Each w (NDir flt entries) (filepath_Join parent name) f s)))).
Proof.
  intros St C w parent name flt entries f s Hname.
  split; [ | split; [ | split ] ].
  - rewrite each_entries_cons. unfold eligible. rewrite Hname, andb_false_r. reflexivity.
  - rewrite Each_eq. unfold trace_of at 1. cbn [fst snd].
    eapply walk_starts_with_stat. apply each_walk.
  - intros Hs Hg. rewrite Each_eq. unfold trace_of at 1. cbn [fst snd].
    rewrite each_NDir. cbv zeta. rewrite (stat_healthy _ entries _ Hs), Hg.
    destruct (f (filepath_Join parent name) s) as [[s1 inner] [e |]];
      unfold trace_of, result_of; cbn [fst snd].
    + destruct (errors_Is e SkipDir); cbn [fst snd]; eauto.
    + destruct (readDirFault flt); [ cbn [fst snd app]; eauto | ].
      destruct (each_entries w f (filepath_Join parent name) entries s1) as [[s2 t] r].
      simpl. eauto.
  - intros Hh Hnil.
    destruct (proj1 (walk_all_roots w f Hnil) _ _ _ _
                (each_walk w f (NDir flt entries) (filepath_Join parent name) s) Hh)
      as [_ Hv].
    rewrite Each_eq. unfold trace_of at 1 3. cbn [fst snd].
    split; [ exact Hv | ].
    intros c flt' entries' Hin El Hg. rewrite Hv, roots_NDir.
    apply in_or_app. right. now apply direct_child_in_roots with flt' entries'.
Qed.

Lemma Each_root_is_exempt_from_name_rules_witness :
  allowed_name zeroWalker "vendor" = false
  /\ each_entries zeroWalker (Scenario.plain Scenario.count) ["root"; "a"]
                  [("vendor", NDir noFaults Scenario.vendor_entries)] 0 = (0, [], None)
  /\ visited (trace_of (Each zeroWalker (NDir noFaults Scenario.vendor_entries)
                             ["root"; "a"; "vendor"] (Scenario.plain Scenario.count) 0))
     = [["root"; "a"; "vendor"]; ["root"; "a"; "vendor"; "pkg"]]
  /\ In ["root"; "a"; "vendor"; "pkg"]
        (visited (trace_of (Each zeroWalker (NDir noFaults Scenario.vendor_entries)
                                 ["root"; "a"; "vendor"] (Scenario.plain Scenario.count) 0))).
Proof.
  assert (Hname : allowed_name zeroWalker "vendor" = false) by reflexivity.
  destruct (Each_root_is_exempt_from_name_rules nat Empty_set zeroWalker ["root"; "a"]
              "vendor" noFaults Scenario.vendor_entries (Scenario.plain Scenario.count) 0
              Hname) as (Hchild & _ & _ & Hroot).
  assert (Hh : healthy zeroWalker (NDir noFaults Scenario.vendor_entries) = true)
    by reflexivity.
  assert (Hnil : forall p s0, result_of (Scenario.plain Scenario.count p s0) = None)
    by (intros; reflexivity).
  destruct (Hroot Hh Hnil) as [Hv Hsub].
  split; [ exact Hname | ]. split; [ exact Hchild | ]. split; [ exact Hv | ].
  apply (Hsub "pkg" noFaults [Scenario.gomod]); [ | reflexivity | reflexivity ].
  simpl. auto.
Defined.

(** ** Facts about [Each] for any visitor *)

Lemma Each_trace {St C} w node dir (f : @visitor St C) s :
  trace_of (Each w node dir f s) = trace_of (each w node dir f s).
Proof. rewrite Each_eq. reflexivity. Qed.

Lemma Each_result {St C} w node dir (f : @visitor St C) s :
  result_of (Each w node dir f s) =
  if Is (result_of (each w node dir f s)) SkipAll then None
  else result_of (each w node dir f s).
Proof. rewrite Each_eq. reflexivity. Qed.

Lemma Each_visits_are_calls {St C} w node dir (f : @visitor St C) s D inner r :
  In (EvVisit D inner r) (trace_of (Each w node dir f s)) ->
  exists s0 s1, f D s0 = (s1, inner, r).
Proof.
  rewrite Each_trace.
  apply (proj1 (walk_visits_are_calls w f) _ _ _ _ (each_walk w f node dir s)).
Qed.

(** A visit that returns an error other than the skip-subtree signal ends
    the traversal; [Each] returns nil when the error is the stop-all signal
    and the error, with the directory as context, otherwise. *)
Lemma Each_abort {St C} w node dir (f : @visitor St C) s D inner e :
  In (EvVisit D inner (Some e)) (trace_of (Each w node dir f s)) ->
  errors_Is e SkipDir = false ->
  result_of (Each w node dir f s) =
    (if errors_Is e SkipAll then None else Some (Wrapf e "in %s" D))
  /\ exists before, trace_of (Each w node dir f s) = before ++ [EvVisit D inner (Some e)].
Proof.
  rewrite Each_trace, Each_result. intros Hin Hs.
  destruct (proj1 (walk_abort_last w f) _ _ _ _ (each_walk w f node dir s)
              D inner e Hin Hs) as [Hr Ht].
  split; [ | exact Ht ]. rewrite Hr. reflexivity.
Qed.

Lemma Each_skip_prunes {St C} w node dir (f : @visitor St C) s D inner e :
  well_formed node = true ->
  In (EvVisit D inner (Some e)) (trace_of (Each w node dir f s)) ->
  errors_Is e SkipDir = true ->
  Forall (fun ev => ~ strict_descendant D (ev_dir ev)) (trace_of (Each w node dir f s)).
Proof.
  rewrite Each_trace. intros Hwf Hin Hs.
  exact (proj1 (walk_skip_prunes w f) _ _ _ _ (each_walk w f node dir s) Hwf
           D inner e Hin Hs).
Qed.

(** ** The aggregated error of [LoadEach] *)

Lemma joinPackageErrors_fold pkgs :
  joinPackageErrors pkgs = fold_left join_step (tagged pkgs) None.
Proof.
  unfold joinPackageErrors, tagged. generalize (@None error) as acc.
  induction pkgs as [| pkg rest IH]; intros acc; [ reflexivity | ].
  simpl. rewrite fold_left_app, IH. f_equal.
  generalize acc. induction (Errors pkg) as [| pe pes IHp]; intros acc0; [ reflexivity | ].
  simpl. apply IHp.
Qed.

Lemma unjoined_join a x :
  unjoined (Joined [a; x]) = unjoined a ++ unjoined x.
Proof.
  unfold unjoined. simpl. now rewrite app_nil_r, filter_app.
Qed.

Lemma unjoined_join1 x : unjoined (Joined [x]) = unjoined x.
Proof. unfold unjoined. simpl. now rewrite app_nil_r. Qed.

Lemma join_all_spec xs :
  forall acc,
    (xs <> [] \/ acc <> None) ->
    exists agg,
      fold_left join_step xs acc = Some agg /\
      unjoined agg =
        (match acc with Some a => unjoined a | None => [] end) ++ flat_map unjoined xs /\
      forall t,
        Is acc t = false -> Forall (fun x => errors_Is x t = false) xs ->
        errors_Is agg t = false.
Proof.
  induction xs as [| x rest IH]; intros acc Hne.
  - destruct acc as [a |]; [ | destruct Hne as [Hne | Hne]; congruence ].
    exists a. simpl. rewrite app_nil_r. auto.
  - simpl fold_left.
    destruct (IH (join_step acc x)) as (agg & Hfold & Hun & His).
    { right. unfold join_step, errors_Join. destruct acc; discriminate. }
    exists agg. split; [ exact Hfold | ]. split.
    + rewrite Hun. simpl flat_map. rewrite app_assoc. f_equal.
      destruct acc as [a |]; unfold join_step, errors_Join; simpl.
      * apply unjoined_join.
      * apply unjoined_join1.
    + intros t Hacc Hall. inversion Hall; subst. apply His; [ | assumption ].
      destruct acc as [a |]; unfold join_step, errors_Join; simpl in *.
      * rewrite Hacc, H1. reflexivity.
      * rewrite H1. reflexivity.
Qed.

Lemma tagged_unjoined pkgs :
  flat_map unjoined (tagged pkgs) =
  flat_map
    (fun pkg =>
       flat_map
         (fun pe => [PackageLoadError (PkgPath pkg) (PackagesError pe); PackagesError pe])
         (Errors pkg))
    pkgs.
Proof.
  unfold tagged. induction pkgs as [| pkg rest IH]; [ reflexivity | ].
  simpl. rewrite flat_map_app, IH. f_equal.
  induction (Errors pkg) as [| pe pes IHp]; [ reflexivity | ].
  simpl. now rewrite IHp.
Qed.

Lemma tagged_not_signals pkgs t :
  Forall (fun x => errors_Is x t = false) (tagged pkgs).
Proof.
  apply Forall_forall. intros x Hx. unfold tagged in Hx.
  apply in_flat_map in Hx. destruct Hx as (pkg & _ & Hx).
  apply in_map_iff in Hx. destruct Hx as (pe & <- & _). reflexivity.
Qed.

Lemma tagged_nonempty pkgs pkg pe :
  In pkg pkgs -> In pe (Errors pkg) -> tagged pkgs <> [].
Proof.
  intros Hpkg Hpe Hnil.
  assert (Hin : In (PackageLoadError (PkgPath pkg) (PackagesError pe)) (tagged pkgs)).
  { unfold tagged. apply in_flat_map. exists pkg. split; [ exact Hpkg | ].
    apply in_map_iff. now exists pe. }
  rewrite Hnil in Hin. contradiction.
Qed.

(** ** The adapters, visit by visit *)

Section AdapterFacts.

Context {St : Type}.
Variable modfile_File : Type.
Variable modfile_Parse : path -> string -> handle -> list error + modfile_File.
Variable modfile_ParseLax : path -> string -> handle -> list error + modfile_File.
Variable packages_Load : Config -> list string -> error + list Package.

Local Abbreviation cev := (cevent modfile_File).

Lemma withGomod_eq w fs dir subdir
      (g : path -> modfile_File -> M St cev (option error)) s :
  withGomod modfile_Parse modfile_ParseLax w fs dir subdir g s =
  match os_ReadFile fs (filepath_Join subdir "go.mod") with
  | inl e =>
      (s, [CReadFile (filepath_Join subdir "go.mod")],
       Some (Wrapf e "reading %s" (filepath_Join subdir "go.mod")))
  | inr data =>
      match parse_gomod modfile_Parse modfile_ParseLax w
                        (filepath_Join subdir "go.mod") data with
      | inl errs =>
          (s, [CReadFile (filepath_Join subdir "go.mod");
               CParse (ParseLax w) (filepath_Join subdir "go.mod") (VersionFixer w)],
           Some (Wrapf (ErrorList errs) "parsing %s" (filepath_Join subdir "go.mod")))
      | inr mf =>
          let '(s1, t, r) := g subdir mf s in
          (s1, CReadFile (filepath_Join subdir "go.mod")
               :: CParse (ParseLax w) (filepath_Join subdir "go.mod") (VersionFixer w)
               :: t, r)
      end
  end.
Proof.
  unfold withGomod, parse_gomod, bind, emit, ret.
  destruct (os_ReadFile fs (filepath_Join subdir "go.mod")) as [e | data];
    [ reflexivity | ].
  destruct (if ParseLax w
            then modfile_ParseLax (filepath_Join subdir "go.mod") data (VersionFixer w)
            else modfile_Parse (filepath_Join subdir "go.mod") data (VersionFixer w))
    as [e | mf]; [ reflexivity | ].
  destruct (g subdir mf s) as [[s1 t] r]. reflexivity.
Qed.

Lemma loadEach_visit_eq w conf
      (g : path -> list Package -> M St cev (option error)) subdir s :
  loadEach_visit packages_Load w conf g subdir s =
  match packages_Load conf ["./..."] with
  | inl e => (s, [CLoad conf ["./..."]], Some (Wrapf e "loading packages in %s" subdir))
  | inr pkgs =>
      match (if FailOnPackageErrors w then joinPackageErrors pkgs else None) with
      | Some agg => (s, [CLoad conf ["./..."]], Some agg)
      | None =>
          let '(s1, t, r) := g subdir pkgs s in
          (s1, CLoad conf ["./..."] :: t, r)
      end
  end.
Proof.
  unfold loadEach_visit, bind, emit, ret.
  destruct (packages_Load conf ["./..."]) as [e | pkgs]; [ reflexivity | ].
  destruct (FailOnPackageErrors w).
  - destruct (joinPackageErrors pkgs) as [agg |]; [ reflexivity | ].
    destruct (g subdir pkgs s) as [[s1 t] r]. reflexivity.
  - destruct (g subdir pkgs s) as [[s1 t] r]. reflexivity.
Qed.

(** What [os.ReadFile] fails with is never one of the walker's signals. *)
Lemma os_ReadFile_error_fatal fs p e :
  os_ReadFile fs p = inl e -> fatal e.
Proof.
  unfold os_ReadFile. intros H.
  destruct (strip_prefix (mount fs) p) as [rel |];
    [ destruct (resolve (tree fs) rel) as [[[code | data] | flt entries] |] | ];
    inversion H; subst; try (split; reflexivity).
  destruct code; split; reflexivity.
Qed.

Lemma manifest_fails_fatal w fs D e ctx :
  manifest_fails modfile_Parse modfile_ParseLax w fs D e ctx -> fatal e.
Proof.
  intros [(Hread & _) | (data & errs & _ & _ & -> & _)].
  - now apply os_ReadFile_error_fatal with fs (filepath_Join D "go.mod").
  - split; reflexivity.
Qed.

(** C5.  If the walk of [EachGomod] comes to a module root [D] whose
    [go.mod] cannot be read or does not parse, then the visit of [D]
    consists of the read (and the parse attempt) only, it is the last thing
    the traversal does, and [EachGomod] returns the error wrapped with the
    path of the [go.mod] and then with [D]: the caller's function is called
    neither for [D] nor for any later root. *)
Theorem EachGomod_aborts_on_bad_manifest :
  forall (w : Walker) (node : Node) (dir : path) (f : callback2 modfile_File) (s : St)
         (D : path) (inner : list cev) (ret : option error) (e : error) (ctx : string),
    In (EvVisit D inner ret)
       (trace_of (EachGomod modfile_Parse modfile_ParseLax w node dir (user2 f) s)) ->
    manifest_fails modfile_Parse modfile_ParseLax w (mkFS dir node) D e ctx ->
    result_of (EachGomod modfile_Parse modfile_ParseLax w node dir (user2 f) s)
      = Some (Wrapf (Wrapf e ctx (filepath_Join D "go.mod")) "in %s" D)
    /\ (forall d mf pkgs r, ~ In (CCallback d mf pkgs r) inner)
    /\ exists before,
         trace_of (EachGomod modfile_Parse modfile_ParseLax w node dir (user2 f) s)
         = before ++ [EvVisit D inner ret].
Proof.
  intros w node dir f s D inner ret e ctx Hin Hfail.
  destruct (manifest_fails_fatal _ _ _ _ _ Hfail) as [HnoSkip HnoStop].
  unfold EachGomod in *.
  destruct (Each_visits_are_calls _ _ _ _ _ _ _ _ Hin) as (s0 & s1 & Hcall).
  rewrite withGomod_eq in Hcall.
  assert (Hshape : ret = Some (Wrapf e ctx (filepath_Join D "go.mod")) /\
                   forall d mf pkgs r, ~ In (CCallback d mf pkgs r) inner).
  { destruct Hfail as [(Hread & ->) | (data & errs & Hread & Hparse & -> & ->)];
      rewrite Hread in Hcall; [ | rewrite Hparse in Hcall ];
      inversion Hcall; subst; (split; [ reflexivity | ]);
      intros d mf pkgs r Hc; simpl in Hc; intuition discriminate. }
  destruct Hshape as [-> Hno].
  destruct (Each_abort _ _ _ _ _ _ _ _ Hin HnoSkip) as [Hr Ht].
  simpl in Hr. simpl in HnoStop. rewrite HnoStop in Hr.
  split; [ exact Hr | ]. split; [ exact Hno | exact Ht ].
Qed.

(** C6.  With [FailOnPackageErrors] set, if the walk of [LoadEach] comes to
    a module root [D] and the packages the loader returns report one or more
    errors, then the visit of [D] is the loader call alone (the caller's
    function is not called), it returns one error [agg] that joins all of
    them, it is the last thing the traversal does, and [LoadEach] returns
    [agg] with [D] as context.  The [errors.Is]/[errors.As] walk of [agg]
    passes, besides the join nodes, through exactly the errors of the
    packages, in order, each as a [PackageLoadError] carrying the [PkgPath]
    of its package followed by the error it wraps. *)
Theorem LoadEach_joins_package_errors :
  forall (w : Walker) (node : Node) (dir : path) (f : @callback3 St) (s : St)
         (D : path) (inner : list cev) (ret : option error) (pkgs : list Package),
    FailOnPackageErrors w = true ->
    In (EvVisit D inner ret)
       (trace_of (LoadEach packages_Load w node dir (user3 modfile_File f) s)) ->
    packages_Load (loadConf w dir) ["./..."] = inr pkgs ->
    (exists pkg pe, In pkg pkgs /\ In pe (Errors pkg)) ->
    exists agg,
      joinPackageErrors pkgs = Some agg
      /\ ret = Some agg
      /\ inner = [CLoad (loadConf w dir) ["./..."]]
      /\ result_of (LoadEach packages_Load w node dir (user3 modfile_File f) s)
         = Some (Wrapf agg "in %s" D)
      /\ (exists before,
            trace_of (LoadEach packages_Load w node dir (user3 modfile_File f) s)
            = before ++ [EvVisit D inner ret])
      /\ unjoined agg =
           flat_map
             (fun pkg =>
                flat_map
                  (fun pe => [PackageLoadError (PkgPath pkg) (PackagesError pe);
                              PackagesError pe])
                  (Errors pkg))
             pkgs
      /\ (forall pkg pe,
            In pkg pkgs -> In pe (Errors pkg) ->
            In (PackageLoadError (PkgPath pkg) (PackagesError pe)) (unwrap_chain agg)
            /\ In (PackagesError pe) (unwrap_chain agg)).
Proof.
  intros w node dir f s D inner ret pkgs Hflag Hin Hload (pkg0 & pe0 & Hpkg0 & Hpe0).
  unfold LoadEach in *.
  destruct (join_all_spec (tagged pkgs) None) as (agg & Hfold & Hun & His).
  { left. now apply tagged_nonempty with pkg0 pe0. }
  rewrite <- joinPackageErrors_fold in Hfold. simpl in Hun. rewrite tagged_unjoined in Hun.
  exists agg. split; [ exact Hfold | ].
  destruct (Each_visits_are_calls _ _ _ _ _ _ _ _ Hin) as (s0 & s1 & Hcall).
  rewrite loadEach_visit_eq, Hload, Hflag, Hfold in Hcall.
  inversion Hcall; subst s1 inner ret.
  split; [ reflexivity | ]. split; [ reflexivity | ].
  destruct (Each_abort _ _ _ _ _ _ _ _ Hin
              (His SkipDir eq_refl (tagged_not_signals pkgs SkipDir))) as [Hr Ht].
  rewrite (His SkipAll eq_refl (tagged_not_signals pkgs SkipAll)) in Hr.
  split; [ exact Hr | ]. split; [ exact Ht | ]. split; [ exact Hun | ].
  intros pkg pe Hpkg Hpe.
  assert (Hboth : forall x,
             In x [PackageLoadError (PkgPath pkg) (PackagesError pe); PackagesError pe] ->
             In x (unwrap_chain agg)).
  { intros x Hx.
    assert (Hu : In x (unjoined agg)).
    { rewrite Hun. apply in_flat_map. exists pkg. split; [ exact Hpkg | ].
      apply in_flat_map. exists pe. split; [ exact Hpe | exact Hx ]. }
    unfold unjoined in Hu. now apply filter_In in Hu. }
  split; apply Hboth; simpl; auto.
Qed.


Lemma loadConf_Dir w dir : Dir (loadConf w dir) = dir.
Proof. reflexivity. Qed.

Lemma LoadEach_visit_starts_with_load w node dir
      (g : path -> list Package -> M St cev (option error)) s D inner ret :
  In (EvVisit D inner ret) (trace_of (LoadEach packages_Load w node dir g s)) ->
  exists rest, inner = CLoad (loadConf w dir) ["./..."] :: rest.
Proof.
  unfold LoadEach. intros Hin.
  destruct (Each_visits_are_calls _ _ _ _ _ _ _ _ Hin) as (s0 & s1 & Hcall).
  rewrite loadEach_visit_eq in Hcall.
  destruct (packages_Load (loadConf w dir) ["./..."]) as [e | pkgs].
  - inversion Hcall. eauto.
  - destruct (if FailOnPackageErrors w then joinPackageErrors pkgs else None).
    + inversion Hcall. eauto.
    + destruct (g D pkgs s0) as [[s2 t] r]. inversion Hcall. eauto.
Qed.

(** C8.  The configuration [LoadEach] passes to the loader: the whole of
    [DefaultLoadConfig] when [LoadConfig] is the zero configuration; the
    caller's configuration with [Mode] set to [DefaultLoadMode] when it is
    not the zero configuration and its [Mode] is zero; the caller's
    configuration otherwise; in each case with [Dir] set.
    [DefaultLoadMode] is made of the eleven documented bits.  Every visit of
    the traversal begins with the loader call, with this configuration. *)
Theorem LoadEach_load_configuration :
  forall (w : Walker) (node : Node) (dir : path)
         (g : path -> list Package -> M St cev (option error)) (s : St),
    (isZeroConfig (LoadConfig w) = true ->
     loadConf w dir = set_Dir DefaultLoadConfig dir)
    /\ (isZeroConfig (LoadConfig w) = false -> Mode (LoadConfig w) = 0%Z ->
        loadConf w dir = set_Dir (set_Mode (LoadConfig w) DefaultLoadMode) dir)
    /\ (Mode (LoadConfig w) <> 0%Z ->
        loadConf w dir = set_Dir (LoadConfig w) dir)
    /\ Mode (loadConf w dir) =
       (if (Mode (LoadConfig w) =? 0)%Z then DefaultLoadMode else Mode (LoadConfig w))
    /\ (DefaultLoadMode =
          fold_right Z.lor 0%Z
            [NeedName; NeedFiles; NeedImports; NeedDeps; NeedTypes; NeedSyntax;
             NeedTypesInfo; NeedTypesSizes; NeedModule; NeedEmbedFiles; NeedEmbedPatterns]
        /\
        forall flag,
          In flag [NeedName; NeedFiles; NeedImports; NeedDeps; NeedTypes; NeedSyntax;
                   NeedTypesInfo; NeedTypesSizes; NeedModule; NeedEmbedFiles;
                   NeedEmbedPatterns] ->
          Z.land DefaultLoadMode flag = flag)
    /\ (forall D inner ret,
          In (EvVisit D inner ret) (trace_of (LoadEach packages_Load w node dir g s)) ->
          exists rest, inner = CLoad (loadConf w dir) ["./..."] :: rest).
Proof.
  intros w node dir g s.
  assert (Hzero : isZeroConfig (LoadConfig w) = true -> Mode (LoadConfig w) = 0%Z).
  { unfold isZeroConfig. intros H. repeat (apply andb_true_iff in H; destruct H as [H _]).
    now apply Z.eqb_eq in H. }
  repeat split.
  - intros Hz. unfold loadConf. rewrite Hz. reflexivity.
  - intros Hz Hm. unfold loadConf. rewrite Hz, Hm. reflexivity.
  - intros Hm. unfold loadConf.
    destruct (isZeroConfig (LoadConfig w)) eqn:Hz; [ exfalso; auto | ].
    apply Z.eqb_neq in Hm. now rewrite Hm.
  - unfold loadConf. destruct (isZeroConfig (LoadConfig w)) eqn:Hz.
    + rewrite (Hzero eq_refl). reflexivity.
    + destruct (Mode (LoadConfig w) =? 0)%Z; reflexivity.
  - intros flag Hflag. simpl in Hflag.
    repeat (destruct Hflag as [<- | Hflag]; [ reflexivity | ]). contradiction.
  - intros D inner ret Hin. eapply LoadEach_visit_starts_with_load. exact Hin.
Qed.

(** C9.  A visit of a module root [D] by [LoadEachGomod] is, in this order:
    the loader call; the join of the packages' errors when
    [FailOnPackageErrors] is set; the read of [D]'s [go.mod]; its parse; the
    call of the caller's function with [D], the manifest and the packages.
    The visit stops at the first step that fails and returns its error, so
    the caller's function is not reached; otherwise it returns what the
    caller's function returns.  What the visit returns then acts as in the
    plain traversal: an error other than the skip-subtree signal ends the
    walk, with nil for the stop-all signal and the error in the context of
    [D] otherwise; the skip-subtree signal keeps the walk out of everything
    strictly below [D]. *)
Theorem LoadEachGomod_visit_order :
  forall (w : Walker) (node : Node) (dir : path) (f : callback4 modfile_File) (s : St)
         (D : path) (inner : list cev) (ret : option error),
    In (EvVisit D inner ret)
       (trace_of (LoadEachGomod modfile_Parse modfile_ParseLax packages_Load
                                w node dir (user4 f) s)) ->
    match packages_Load (loadConf w dir) ["./..."] with
    | inl e =>
        inner = [CLoad (loadConf w dir) ["./..."]]
        /\ ret = Some (Wrapf e "loading packages in %s" D)
    | inr pkgs =>
        match (if FailOnPackageErrors w then joinPackageErrors pkgs else None) with
        | Some agg =>
            inner = [CLoad (loadConf w dir) ["./..."]] /\ ret = Some agg
        | None =>
            match os_ReadFile (mkFS dir node) (filepath_Join D "go.mod") with
            | inl e =>
                inner = [CLoad (loadConf w dir) ["./..."];
                         CReadFile (filepath_Join D "go.mod")]
                /\ ret = Some (Wrapf e "reading %s" (filepath_Join D "go.mod"))
            | inr data =>
                match parse_gomod modfile_Parse modfile_ParseLax w
                                  (filepath_Join D "go.mod") data with
                | inl errs =>
                    inner = [CLoad (loadConf w dir) ["./..."];
                             CReadFile (filepath_Join D "go.mod");
                             CParse (ParseLax w) (filepath_Join D "go.mod") (VersionFixer w)]
                    /\ ret = Some (Wrapf (ErrorList errs) "parsing %s"
                                         (filepath_Join D "go.mod"))
                | inr mf =>
                    inner = [CLoad (loadConf w dir) ["./..."];
                             CReadFile (filepath_Join D "go.mod");
                             CParse (ParseLax w) (filepath_Join D "go.mod") (VersionFixer w);
                             CCallback D (Some mf) (Some pkgs) ret]
                end
            end
        end
    end
    /\ (forall e,
          ret = Some e -> errors_Is e SkipDir = false ->
          result_of (LoadEachGomod modfile_Parse modfile_ParseLax packages_Load
                                   w node dir (user4 f) s)
            = (if errors_Is e SkipAll then None else Some (Wrapf e "in %s" D))
          /\ exists before,
               trace_of (LoadEachGomod modfile_Parse modfile_ParseLax packages_Load
                                       w node dir (user4 f) s)
               = before ++ [EvVisit D inner ret])
    /\ (forall e,
          ret = Some e -> errors_Is e SkipDir = true -> well_formed node = true ->
          Forall (fun ev => ~ strict_descendant D (ev_dir ev))
                 (trace_of (LoadEachGomod modfile_Parse modfile_ParseLax packages_Load
                                          w node dir (user4 f) s))).
Proof.
  intros w node dir f s D inner ret Hin.
  unfold LoadEachGomod, LoadEach in *.
  split; [ | split ].
  - destruct (Each_visits_are_calls _ _ _ _ _ _ _ _ Hin) as (s0 & s1 & Hcall).
    rewrite loadEach_visit_eq in Hcall.
    destruct (packages_Load (loadConf w dir) ["./..."]) as [e | pkgs].
    { inversion Hcall. auto. }
    destruct (if FailOnPackageErrors w then joinPackageErrors pkgs else None) as [agg |].
    { inversion Hcall. auto. }
    rewrite withGomod_eq in Hcall.
    destruct (os_ReadFile (mkFS dir node) (filepath_Join D "go.mod")) as [e | data].
    { inversion Hcall. auto. }
    destruct (parse_gomod modfile_Parse modfile_ParseLax w (filepath_Join D "go.mod") data)
      as [errs | mf].
    { inversion Hcall. auto. }
    unfold user4 in Hcall. destruct (f D mf pkgs s0) as [s2 r].
    inversion Hcall. reflexivity.
  - intros e -> Hs. exact (Each_abort _ _ _ _ _ _ _ _ Hin Hs).
  - intros e -> Hs Hwf. exact (Each_skip_prunes _ _ _ _ _ _ _ _ Hwf Hin Hs).
Qed.

End AdapterFacts.

(** ** The adapters on the worked examples *)

Lemma EachGomod_aborts_on_bad_manifest_witness :
  In (EvVisit ["root"; "a"]
              [CReadFile ["root"; "a"; "go.mod"]; CParse false ["root"; "a"; "go.mod"] None]
              (Some (Wrapf (ErrorList [ErrorString "syntax error"]) "parsing %s" ["root"; "a"; "go.mod"])))
     (trace_of (EachGomod Scenario.parse Scenario.parse zeroWalker Scenario.broken
                          Scenario.root (user2 Scenario.count2) 0))
  /\ manifest_fails Scenario.parse Scenario.parse zeroWalker
                    (mkFS Scenario.root Scenario.broken) ["root"; "a"]
                    (ErrorList [ErrorString "syntax error"]) "parsing %s"
  /\ result_of (EachGomod Scenario.parse Scenario.parse zeroWalker Scenario.broken
                         Scenario.root (user2 Scenario.count2) 0)
     = Some (Wrapf (Wrapf (ErrorList [ErrorString "syntax error"]) "parsing %s" ["root"; "a"; "go.mod"])
                   "in %s" ["root"; "a"])
  /\ state_of (EachGomod Scenario.parse Scenario.parse zeroWalker Scenario.broken
                        Scenario.root (user2 Scenario.count2) 0) = 1.
Proof.
  assert (Hin : In (EvVisit ["root"; "a"]
                      [CReadFile ["root"; "a"; "go.mod"];
                       CParse false ["root"; "a"; "go.mod"] None]
                      (Some (Wrapf (ErrorList [ErrorString "syntax error"]) "parsing %s"
                                   ["root"; "a"; "go.mod"])))
                   (trace_of (EachGomod Scenario.parse Scenario.parse zeroWalker
                                Scenario.broken Scenario.root (user2 Scenario.count2) 0))).
  { vm_compute. auto 10. }
  assert (Hfail : manifest_fails Scenario.parse Scenario.parse zeroWalker
                    (mkFS Scenario.root Scenario.broken) ["root"; "a"]
                    (ErrorList [ErrorString "syntax error"]) "parsing %s").
  { right. exists "garbage", [ErrorString "syntax error"]. repeat split. }
  destruct (@EachGomod_aborts_on_bad_manifest nat string Scenario.parse Scenario.parse
              zeroWalker Scenario.broken Scenario.root Scenario.count2 0
              ["root"; "a"] _ _ _ _ Hin Hfail) as (Hr & _ & _).
  split; [ exact Hin | ]. split; [ exact Hfail | ].
  split; [ exact Hr | reflexivity ].
Defined.

Lemma LoadEach_joins_package_errors_witness :
  FailOnPackageErrors Scenario.failing = true
  /\ Scenario.load_broken (loadConf Scenario.failing Scenario.root) ["./..."]
     = inr [mkPackage "m/x" [Scenario.undefined_x]; mkPackage "m/y" [Scenario.unused_y]]
  /\ exists agg,
       result_of (LoadEach Scenario.load_broken Scenario.failing Scenario.nested
                           Scenario.root (user3 string Scenario.count3) 0)
       = Some (Wrapf agg "in %s" ["root"])
       /\ unjoined agg =
          [PackageLoadError "m/x" (PackagesError Scenario.undefined_x);
           PackagesError Scenario.undefined_x;
           PackageLoadError "m/y" (PackagesError Scenario.unused_y);
           PackagesError Scenario.unused_y].
Proof.
  assert (Hflag : FailOnPackageErrors Scenario.failing = true) by reflexivity.
  assert (Hload : Scenario.load_broken (loadConf Scenario.failing Scenario.root) ["./..."]
                  = inr [mkPackage "m/x" [Scenario.undefined_x];
                         mkPackage "m/y" [Scenario.unused_y]]) by reflexivity.
  assert (Hin : In (EvVisit ["root"]
                      [CLoad (loadConf Scenario.failing Scenario.root) ["./..."]]
                      (joinPackageErrors [mkPackage "m/x" [Scenario.undefined_x];
                                          mkPackage "m/y" [Scenario.unused_y]]))
                   (trace_of (LoadEach Scenario.load_broken Scenario.failing
                                Scenario.nested Scenario.root
                                (user3 string Scenario.count3) 0))).
  { vm_compute. auto 10. }
  assert (Herr : exists pkg pe,
             In pkg [mkPackage "m/x" [Scenario.undefined_x];
                     mkPackage "m/y" [Scenario.unused_y]] /\ In pe (Errors pkg)).
  { exists (mkPackage "m/x" [Scenario.undefined_x]), Scenario.undefined_x.
    simpl. auto. }
  destruct (@LoadEach_joins_package_errors nat string Scenario.load_broken
              Scenario.failing Scenario.nested Scenario.root Scenario.count3 0
              ["root"] _ _ _ Hflag Hin Hload Herr)
    as (agg & _ & _ & _ & Hr & _ & Hun & _).
  split; [ exact Hflag | ]. split; [ exact Hload | ].
  exists agg. split; [ exact Hr | exact Hun ].
Defined.

(** C7.  At the nested module [root/a] of the example, [LoadEach] called on
    [root] hands the loader a configuration whose [Dir] is [root], the
    directory passed to [LoadEach], and calls the caller's function for
    [root/a] with the packages loaded from [root]. *)
Lemma LoadEach_loads_nested_module_from_traversal_root :
  In (EvVisit ["root"; "a"]
              [CLoad (set_Dir DefaultLoadConfig ["root"]) ["./..."];
               CCallback ["root"; "a"] None (Some [mkPackage "root" []]) None]
              None)
     (trace_of (LoadEach Scenario.load zeroWalker Scenario.nested Scenario.root
                         (user3 string Scenario.count3) 0))
  /\ Dir (set_Dir DefaultLoadConfig ["root"]) = ["root"]
  /\ Dir (set_Dir DefaultLoadConfig ["root"]) <> ["root"; "a"].
Proof.
  split; [ vm_compute; auto 10 | ]. split; [ reflexivity | discriminate ].
Qed.

Lemma LoadEach_load_configuration_witness :
  isZeroConfig (LoadConfig zeroWalker) = true
  /\ loadConf zeroWalker ["root"] = set_Dir DefaultLoadConfig ["root"]
  /\ Mode (loadConf zeroWalker ["root"]) = DefaultLoadMode
  /\ Mode (loadConf (mkWalker false false false None
                               (mkConfig 0 None None [] None None None None true None)
                               false) ["root"]) = DefaultLoadMode
  /\ Tests (loadConf (mkWalker false false false None
                                (mkConfig 0 None None [] None None None None true None)
                                false) ["root"]) = true
  /\ Mode (loadConf (mkWalker false false false None
                               (mkConfig NeedName None None [] None None None None false None)
                               false) ["root"]) = NeedName.
Proof.
  destruct (@LoadEach_load_configuration nat string Scenario.load zeroWalker
              Scenario.nested ["root"] (user3 string Scenario.count3) 0)
    as (Hzero & _ & _ & _ & _ & _).
  split; [ reflexivity | ]. split; [ exact (Hzero eq_refl) | ].
  repeat split.
Defined.

Lemma LoadEachGomod_visit_order_witness :
  In (EvVisit ["root"]
              [CLoad (loadConf zeroWalker Scenario.root) ["./..."];
               CReadFile ["root"; "go.mod"];
               CParse false ["root"; "go.mod"] None;
               CCallback ["root"] (Some "module m") (Some [mkPackage "root" []]) None]
              None)
     (trace_of (LoadEachGomod Scenario.parse Scenario.parse Scenario.load zeroWalker
                              Scenario.broken Scenario.root (user4 Scenario.count4) 0))
  /\ In (EvVisit ["root"; "a"]
                 [CLoad (loadConf zeroWalker Scenario.root) ["./..."];
                  CReadFile ["root"; "a"; "go.mod"];
                  CParse false ["root"; "a"; "go.mod"] None]
                 (Some (Wrapf (ErrorList [ErrorString "syntax error"]) "parsing %s"
                              ["root"; "a"; "go.mod"])))
        (trace_of (LoadEachGomod Scenario.parse Scenario.parse Scenario.load zeroWalker
                                 Scenario.broken Scenario.root (user4 Scenario.count4) 0))
  /\ result_of (LoadEachGomod Scenario.parse Scenario.parse Scenario.load zeroWalker
                             Scenario.broken Scenario.root (user4 Scenario.count4) 0)
     = Some (Wrapf (Wrapf (ErrorList [ErrorString "syntax error"]) "parsing %s" ["root"; "a"; "go.mod"])
                   "in %s" ["root"; "a"]).
Proof.
  assert (Hin : In (EvVisit ["root"; "a"]
                      [CLoad (loadConf zeroWalker Scenario.root) ["./..."];
                       CReadFile ["root"; "a"; "go.mod"];
                       CParse false ["root"; "a"; "go.mod"] None]
                      (Some (Wrapf (ErrorList [ErrorString "syntax error"]) "parsing %s"
                                   ["root"; "a"; "go.mod"])))
                   (trace_of (LoadEachGomod Scenario.parse Scenario.parse Scenario.load
                                zeroWalker Scenario.broken Scenario.root
                                (user4 Scenario.count4) 0))).
  { vm_compute. auto 10. }
  destruct (@LoadEachGomod_visit_order nat string Scenario.parse Scenario.parse
              Scenario.load zeroWalker Scenario.broken Scenario.root Scenario.count4 0
              ["root"; "a"] _ _ Hin) as (_ & Habort & _).
  destruct (Habort _ eq_refl eq_refl) as [Hr _].
  split; [ vm_compute; auto 10 | ]. split; [ exact Hin | exact Hr ].
Defined.

(** * Further properties of the package *)

(** ** Subsequences *)

Lemma subseq_nil_l {A} (l : list A) : subseq [] l.
Proof. induction l; [ apply subseq_nil | now apply subseq_skip ]. Qed.

Lemma subseq_app {A} (a b c d : list A) :
  subseq a b -> subseq c d -> subseq (a ++ c) (b ++ d).
Proof.
  induction 1; intros Hcd; simpl.
  - exact Hcd.
  - apply subseq_skip. auto.
  - apply subseq_keep. auto.
Qed.

Lemma subseq_app_l {A} (a b c : list A) : subseq a b -> subseq a (c ++ b).
Proof. intros H. induction c; simpl; [ exact H | now apply subseq_skip ]. Qed.

Lemma subseq_app_r {A} (a b c : list A) : subseq a b -> subseq a (b ++ c).
Proof.
  intros H. rewrite <- (app_nil_r a). apply subseq_app; [ exact H | apply subseq_nil_l ].
Qed.

Lemma subseq_In {A} (a b : list A) x : subseq a b -> In x a -> In x b.
Proof.
  induction 1; intros Hin; simpl; auto.
  destruct Hin as [<- | Hin]; auto.
Qed.

Lemma subseq_NoDup {A} (a b : list A) : subseq a b -> NoDup b -> NoDup a.
Proof.
  induction 1 as [| x l1 l2 Hs IH | x l1 l2 Hs IH]; intros Hb.
  - exact Hb.
  - inversion Hb; subst. auto.
  - inversion Hb as [| y l Hnotin Hnd]; subst. constructor; [ | auto ].
    intros Hin. apply Hnotin. now apply subseq_In with l1.
Qed.

(** ** The calls of any callback *)

Lemma stat_ok_inv node gomodPath :
  os_Stat_gomod node gomodPath = None ->
  exists flt entries,
    node = NDir flt entries /\ statFault flt = None /\ has_gomod entries = true.
Proof.
  destruct node as [data | flt entries]; simpl; [ discriminate | ].
  destruct (statFault flt) eqn:Hs; [ discriminate | ].
  destruct (has_gomod entries) eqn:Hg; [ | discriminate ].
  intros _. now exists flt, entries.
Qed.

Lemma stat_fail_inv node gomodPath e :
  os_Stat_gomod node gomodPath = Some e ->
  errors_Is e ErrNotExist = false ->
  exists code, code <> ENOENT /\ e = PathError "stat" gomodPath (Errno code).
Proof.
  destruct node as [data | flt entries]; simpl.
  - intros H _. inversion H. exists ENOTDIR. split; [ discriminate | reflexivity ].
  - destruct (statFault flt) as [code |].
    + intros H Hne. inversion H; subst. exists code. split; [ | reflexivity ].
      intros ->. discriminate.
    + destruct (has_gomod entries); [ discriminate | ].
      intros H Hne. inversion H; subst. discriminate.
Qed.

Section AnyCallback.

Context {St C : Type}.
Variable w : Walker.
Variable f : @visitor St C.

Lemma enters_visited flt entries dir s s1 pre :
  enters f (NDir flt entries) dir s s1 pre ->
  visited pre = [] \/ (visited pre = [dir] /\ has_gomod entries = true).
Proof.
  intros [(_ & _ & ->) | (Hst & inner & _ & ->)]; [ now left | right ].
  apply stat_ok_inv in Hst. destruct Hst as (flt' & entries' & Heq & _ & Hg).
  inversion Heq; subst. auto.
Qed.

Lemma walk_visited_subseq :
  (forall node dir s out, walk w f node dir s out ->
     subseq (visited (trace_of out)) (roots w node dir))
  /\
  (forall dir entries s out, walk_entries w f dir entries s out ->
     subseq (visited (trace_of out)) (roots_entries w dir entries)).
Proof.
  apply walk_mutind; unfold trace_of; cbn [fst snd].
  - intros node dir s e _ _. apply subseq_nil_l.
  - intros node dir s s1 inner e Hst _ _.
    apply stat_ok_inv in Hst. destruct Hst as (flt & entries & -> & _ & Hg).
    rewrite roots_NDir, Hg. simpl. apply subseq_keep. apply subseq_nil_l.
  - intros node dir s s1 inner e Hst _ _.
    apply stat_ok_inv in Hst. destruct Hst as (flt & entries & -> & _ & Hg).
    rewrite roots_NDir, Hg. simpl. apply subseq_keep. apply subseq_nil_l.
  - intros flt entries dir s s1 pre code Hen _.
    rewrite visited_app, roots_NDir. simpl. rewrite app_nil_r.
    destruct (enters_visited _ _ _ _ _ _ Hen) as [-> | [-> ->]].
    + apply subseq_nil_l.
    + simpl. apply subseq_keep. apply subseq_nil_l.
  - intros flt entries dir s s1 pre s2 t r Hen _ _ IH.
    rewrite visited_app, roots_NDir.
    change (visited (EvReadDir dir :: t)) with (visited t).
    destruct (enters_visited _ _ _ _ _ _ Hen) as [-> | [-> ->]].
    + simpl. now apply subseq_app_l.
    + simpl. now apply subseq_keep.
  - intros dir s. apply subseq_nil.
  - intros dir name child rest s out El _ IH. simpl. now rewrite El.
  - intros dir name child rest s s1 t e El _ IH. simpl. rewrite El.
    now apply subseq_app_r.
  - intros dir name child rest s s1 t1 s2 t2 r El _ IH1 _ IH2.
    rewrite visited_app. simpl. rewrite El. now apply subseq_app.
Qed.

(** ** Where an error comes from *)

Lemma failure_at_app (pre tr : list (wevent C)) e :
  failure_at tr e -> failure_at (pre ++ tr) e.
Proof.
  intros [(before & D & code & Hc & -> & ->)
         | [(before & D & code & -> & ->) | (before & D & inner & e' & Hs & -> & ->)]].
  - left. exists (pre ++ before), D, code. now rewrite app_assoc.
  - right. left. exists (pre ++ before), D, code. now rewrite app_assoc.
  - right. right. exists (pre ++ before), D, inner, e'. now rewrite app_assoc.
Qed.

Lemma walk_failure :
  (forall node dir s out, walk w f node dir s out ->
     forall e, result_of out = Some e -> failure_at (trace_of out) e)
  /\
  (forall dir entries s out, walk_entries w f dir entries s out ->
     forall e, result_of out = Some e -> failure_at (trace_of out) e).
Proof.
  apply walk_mutind; unfold trace_of, result_of; cbn [fst snd].
  - intros node dir s e Hst Hne e0 He0. inversion He0; subst.
    destruct (stat_fail_inv _ _ _ Hst Hne) as (code & Hc & ->).
    left. exists [], dir, code. auto.
  - intros; discriminate.
  - intros node dir s s1 inner e _ _ Hs e0 He0. inversion He0; subst.
    right. right. exists [EvStat (filepath_Join dir "go.mod")], dir, inner, e. auto.
  - intros flt entries dir s s1 pre code _ _ e0 He0. inversion He0; subst.
    right. left. exists pre, dir, code. auto.
  - intros flt entries dir s s1 pre s2 t r _ _ _ IH e He.
    change (pre ++ EvReadDir dir :: t) with (pre ++ [EvReadDir dir] ++ t).
    rewrite app_assoc. apply failure_at_app. now apply IH.
  - intros; discriminate.
  - auto.
  - auto.
  - intros dir name child rest s s1 t1 s2 t2 r _ _ _ _ IH e He.
    apply failure_at_app. now apply IH.
Qed.

End AnyCallback.

(** X1.  An error [Walker.Each] returns tells where the walk failed, and
    the failure is the last thing the walk did: a [stat] of some [go.mod]
    that failed with something else than not-found, a directory listing
    that failed, or a call of the callback that returned an error.  The
    error carries the path once, however deep the directory lies, and it
    is never one of the two control signals. *)
Theorem Each_error_tells_where :
  forall (St C : Type) (w : Walker) (node : Node) (dir : path)
         (f : @visitor St C) (s : St) (e : error),
    result_of (Each w node dir f s) = Some e ->
    failure_at (trace_of (Each w node dir f s)) e /\ fatal e.
Proof.
  intros St C w node dir f s e. rewrite Each_trace, Each_result. intros He.
  destruct (result_of (each w node dir f s)) as [e0 |] eqn:Hr;
    [ | discriminate ].
  simpl in He. destruct (errors_Is e0 SkipAll) eqn:Hall; [ discriminate | ].
  inversion He; subst e0.
  pose proof (proj1 (walk_failure w f) _ _ _ _ (each_walk w f node dir s) e Hr) as Hf.
  split; [ exact Hf | ]. split; [ | exact Hall ].
  destruct Hf as [(before & D & code & Hc & _ & ->)
                 | [(before & D & code & _ & ->) | (before & D & inner & e' & Hs & _ & ->)]].
  - destruct code; reflexivity.
  - destruct code; reflexivity.
  - exact Hs.
Qed.

Lemma Each_error_tells_where_witness :
  result_of (Each zeroWalker Scenario.unreadable Scenario.root
                  (Scenario.plain Scenario.count) 0)
    = Some (Wrapf (PathError "open" ["root"; "a"] (Errno EACCES))
                  "reading directory %s" ["root"; "a"])
  /\ failure_at (trace_of (Each zeroWalker Scenario.unreadable Scenario.root
                                (Scenario.plain Scenario.count) 0))
                (Wrapf (PathError "open" ["root"; "a"] (Errno EACCES))
                       "reading directory %s" ["root"; "a"])
  /\ fatal (Wrapf (PathError "open" ["root"; "a"] (Errno EACCES))
                  "reading directory %s" ["root"; "a"]).
Proof.
  assert (Hr : result_of (Each zeroWalker Scenario.unreadable Scenario.root
                               (Scenario.plain Scenario.count) 0)
               = Some (Wrapf (PathError "open" ["root"; "a"] (Errno EACCES))
                             "reading directory %s" ["root"; "a"])) by reflexivity.
  split; [ exact Hr | ].
  exact (Each_error_tells_where nat Empty_set zeroWalker Scenario.unreadable Scenario.root
           (Scenario.plain Scenario.count) 0 _ Hr).
Defined.

(** X2.  Whatever the callback returns and whatever fails in the file
    system, the directories [Walker.Each] calls the callback on are some of
    [roots], in the order of [roots]: only directories that have a [go.mod]
    entry and are reached through allowed names, never out of pre-order,
    and, the entry names of a directory being distinct, none twice. *)
Theorem Each_calls_some_roots_in_order :
  forall (St C : Type) (w : Walker) (node : Node) (dir : path)
         (f : @visitor St C) (s : St),
    subseq (visited (trace_of (Each w node dir f s))) (roots w node dir)
    /\ (forall p, In p (visited (trace_of (Each w node dir f s))) ->
                  In p (roots w node dir))
    /\ (well_formed node = true -> NoDup (visited (trace_of (Each w node dir f s)))).
Proof.
  intros St C w node dir f s. rewrite Each_trace.
  pose proof (proj1 (walk_visited_subseq w f) _ _ _ _ (each_walk w f node dir s)) as H.
  split; [ exact H | ]. split.
  - intros p. now apply subseq_In.
  - intros Hwf. apply subseq_NoDup with (roots w node dir); [ exact H | ].
    now apply roots_NoDup.
Qed.

Lemma Each_calls_some_roots_in_order_witness :
  well_formed Scenario.nested = true
  /\ visited (trace_of (Each zeroWalker Scenario.nested Scenario.root
                             (Scenario.plain (Scenario.signal_at SkipDir ["root"; "a"])) 0))
     = [["root"]; ["root"; "a"]; ["root"; "b"]]
  /\ roots zeroWalker Scenario.nested Scenario.root
     = [["root"]; ["root"; "a"]; ["root"; "a"; "x"]; ["root"; "b"]]
  /\ subseq (visited (trace_of (Each zeroWalker Scenario.nested Scenario.root
                                     (Scenario.plain (Scenario.signal_at SkipDir ["root"; "a"])) 0)))
            (roots zeroWalker Scenario.nested Scenario.root)
  /\ NoDup (visited (trace_of (Each zeroWalker Scenario.nested Scenario.root
                                    (Scenario.plain (Scenario.signal_at SkipDir ["root"; "a"])) 0))).
Proof.
  destruct (Each_calls_some_roots_in_order nat Empty_set zeroWalker Scenario.nested
              Scenario.root (Scenario.plain (Scenario.signal_at SkipDir ["root"; "a"])) 0)
    as (Hsub & _ & Hnd).
  split; [ reflexivity | ]. split; [ reflexivity | ]. split; [ reflexivity | ].
  split; [ exact Hsub | exact (Hnd eq_refl) ].
Defined.

(** ** The state the callback leaves *)

Section NilFold.

Context {St C : Type}.
Variable w : Walker.
Variable f : @visitor St C.
Hypothesis f_nil : forall p s, result_of (f p s) = None.

Lemma enters_state flt entries dir s s1 pre :
  statFault flt = None ->
  enters f (NDir flt entries) dir s s1 pre ->
  s1 = fold_left (fun st p => state_of (f p st))
                 (if has_gomod entries then [dir] else []) s.
Proof.
  intros Hs Hen. unfold enters in Hen. rewrite (stat_healthy _ entries _ Hs) in Hen.
  destruct (has_gomod entries).
  - destruct Hen as [(Hen & _) | (_ & inner & Hf & _)]; [ discriminate | ].
    simpl. now rewrite Hf.
  - destruct Hen as [(_ & -> & _) | (Hen & _)]; [ reflexivity | discriminate ].
Qed.

Lemma walk_state_fold :
  (forall node dir s out, walk w f node dir s out ->
     healthy w node = true ->
     state_of out = fold_left (fun st p => state_of (f p st)) (roots w node dir) s)
  /\
  (forall dir entries s out, walk_entries w f dir entries s out ->
     healthy_entries w entries = true ->
     state_of out =
     fold_left (fun st p => state_of (f p st)) (roots_entries w dir entries) s).
Proof.
  apply walk_mutind; unfold state_of; cbn [fst snd].
  - intros node dir s e Hst Hne Hh. exfalso.
    rewrite (healthy_stat w node _ e Hh Hst) in Hne. discriminate.
  - intros node dir s s1 inner e _ Hf _ _. exfalso.
    specialize (f_nil dir s). rewrite Hf in f_nil. discriminate.
  - intros node dir s s1 inner e _ Hf _ _. exfalso.
    specialize (f_nil dir s). rewrite Hf in f_nil. discriminate.
  - intros flt entries dir s s1 pre code _ Hrd Hh. exfalso.
    apply healthy_NDir in Hh. destruct Hh as (_ & Hr & _). congruence.
  - intros flt entries dir s s1 pre s2 t r Hen _ _ IH Hh.
    apply healthy_NDir in Hh. destruct Hh as (Hs & _ & He).
    pose proof (enters_state _ _ _ _ _ _ Hs Hen) as Hs1. unfold state_of in Hs1.
    rewrite roots_NDir, fold_left_app, <- Hs1.
    now apply IH.
  - reflexivity.
  - intros dir name child rest s out El _ IH Hh.
    simpl in Hh. rewrite El in Hh. simpl. rewrite El. now apply IH.
  - intros dir name child rest s s1 t e El Hw _ Hh. exfalso.
    simpl in Hh. rewrite El in Hh. apply andb_true_iff in Hh. destruct Hh as [Hh _].
    destruct (proj1 (walk_all_roots w f f_nil) _ _ _ _ Hw Hh) as [Hr _]. discriminate.
  - intros dir name child rest s s1 t1 s2 t2 r El _ IH1 _ IH2 Hh.
    simpl in Hh. rewrite El in Hh. apply andb_true_iff in Hh. destruct Hh as [Hc Hrest].
    simpl. rewrite El, fold_left_app, <- (IH1 Hc). now apply IH2.
Qed.

End NilFold.

(** X3.  On a tree where no [stat] and no listing fails, [Walker.Each] with
    a callback that always returns nil leaves the caller's state as the
    callback applied to the directories of [roots] one after the other, in
    that order. *)
Theorem Each_folds_the_callback_over_roots :
  forall (St C : Type) (w : Walker) (node : Node) (dir : path)
         (f : @visitor St C) (s : St),
    healthy w node = true ->
    (forall p s0, result_of (f p s0) = None) ->
    state_of (Each w node dir f s) =
    fold_left (fun st p => state_of (f p st)) (roots w node dir) s.
Proof.
  intros St C w node dir f s Hh Hnil. rewrite Each_eq. unfold state_of at 1. cbn [fst snd].
  exact (proj1 (walk_state_fold w f Hnil) _ _ _ _ (each_walk w f node dir s) Hh).
Qed.

Lemma Each_folds_the_callback_over_roots_witness :
  healthy zeroWalker Scenario.nested = true
  /\ (forall p s0, result_of (user1 (C := Empty_set) Examples.record p s0) = None)
  /\ state_of (Each zeroWalker Scenario.nested Scenario.root
                    (user1 (C := Empty_set) Examples.record) [])
     = [["root"]; ["root"; "a"]; ["root"; "a"; "x"]; ["root"; "b"]]
  /\ state_of (Each zeroWalker Scenario.nested Scenario.root
                    (user1 (C := Empty_set) Examples.record) [])
     = fold_left (fun st p => state_of (user1 (C := Empty_set) Examples.record p st))
                 (roots zeroWalker Scenario.nested Scenario.root) [].
Proof.
  assert (Hh : healthy zeroWalker Scenario.nested = true) by reflexivity.
  assert (Hn : forall p s0, result_of (user1 (C := Empty_set) Examples.record p s0) = None)
    by (intros; reflexivity).
  split; [ exact Hh | ]. split; [ exact Hn | ]. split; [ reflexivity | ].
  exact (Each_folds_the_callback_over_roots (list path) Empty_set zeroWalker
           Scenario.nested Scenario.root (user1 Examples.record) [] Hh Hn).
Defined.

(** ** The configuration of the loader *)

Lemma isZeroConfig_iff conf : isZeroConfig conf = true <-> conf = zeroLoadConfig.
Proof.
  split.
  - destruct conf as [m c l d e b fs pf t o]. unfold isZeroConfig. cbn.
    intros H. repeat (apply andb_true_iff in H; destruct H as [H ?]).
    apply Z.eqb_eq in H. subst m.
    destruct c, l, d, e, b, fs, pf, t, o; try discriminate. reflexivity.
  - intros ->. reflexivity.
Qed.

(** X4.  [isZeroConfig] holds of the zero configuration and of no other.
    The configuration [LoadEach] hands to the loader is the caller's with
    [Mode] replaced by [DefaultLoadMode] when it is zero and [Dir] replaced
    by the directory of the walk: the zero-configuration test changes
    nothing beyond that, a [Dir] the caller sets never reaches the loader,
    and the loader never sees a zero [Mode]. *)
Theorem LoadEach_configuration_is_mode_and_dir :
  forall (w : Walker) (dir : path),
    (forall conf, isZeroConfig conf = true <-> conf = zeroLoadConfig)
    /\ loadConf w dir =
       set_Dir (if (Mode (LoadConfig w) =? 0)%Z
                then set_Mode (LoadConfig w) DefaultLoadMode
                else LoadConfig w) dir
    /\ (forall d, loadConf (with_LoadConfig w (set_Dir (LoadConfig w) d)) dir
                  = loadConf w dir)
    /\ Mode (loadConf w dir) <> 0%Z
    /\ Dir (loadConf w dir) = dir.
Proof.
  intros w dir.
  assert (Hform : forall w0, loadConf w0 dir =
            set_Dir (if (Mode (LoadConfig w0) =? 0)%Z
                     then set_Mode (LoadConfig w0) DefaultLoadMode
                     else LoadConfig w0) dir).
  { intros w0. unfold loadConf.
    destruct (isZeroConfig (LoadConfig w0)) eqn:Hz; [ | reflexivity ].
    apply isZeroConfig_iff in Hz. rewrite Hz. reflexivity. }
  split; [ exact isZeroConfig_iff | ]. split; [ apply Hform | ]. split; [ | split ].
  - intros d. rewrite !Hform. cbn.
    destruct (Mode (LoadConfig w) =? 0)%Z; reflexivity.
  - rewrite Hform. destruct (Mode (LoadConfig w) =? 0)%Z eqn:Hm; cbn.
    + discriminate.
    + now apply Z.eqb_neq.
  - reflexivity.
Qed.

(** ** More on the adapters *)

Lemma tagged_nil_iff pkgs :
  tagged pkgs = [] <-> forallb (fun pkg => is_nil (Errors pkg)) pkgs = true.
Proof.
  unfold tagged. induction pkgs as [| pkg rest IH]; simpl; [ tauto | ].
  destruct (Errors pkg) as [| pe pes]; simpl; [ exact IH | ].
  split; discriminate.
Qed.

Lemma joinPackageErrors_None_iff pkgs :
  joinPackageErrors pkgs = None <-> forallb (fun pkg => is_nil (Errors pkg)) pkgs = true.
Proof.
  rewrite <- tagged_nil_iff, joinPackageErrors_fold. split.
  - intros Hnone. destruct (tagged pkgs) as [| x xs] eqn:Ht; [ reflexivity | ].
    destruct (join_all_spec (x :: xs) None) as (agg & Hfold & _).
    { left. discriminate. }
    congruence.
  - intros ->. reflexivity.
Qed.

Lemma callbacks_of_visits {File} (c : path -> cevent File) (tr : list (wevent (cevent File))) :
  (forall D inner r, In (EvVisit D inner r) tr -> filter isCallback inner = [c D]) ->
  callbacks tr = map c (visited tr).
Proof.
  induction tr as [| ev tr IH]; intros H; [ reflexivity | ].
  assert (IH' : callbacks tr = map c (visited tr)).
  { apply IH. intros D inner r Hin. apply (H D inner r). now right. }
  destruct ev as [gp | D inner r | d]; simpl; try exact IH'.
  rewrite (H D inner r (or_introl eq_refl)). simpl. now f_equal.
Qed.

Section OnRoots.

Context {St C : Type}.
Variable w : Walker.
Variable f : @visitor St C.

(** As [walk_all_roots], the callback being known to return nil on the
    directories of [roots] only. *)
Lemma walk_all_roots_on :
  (forall node dir s out, walk w f node dir s out ->
     healthy w node = true ->
     (forall p, In p (roots w node dir) -> forall s0, result_of (f p s0) = None) ->
     result_of out = None /\ visited (trace_of out) = roots w node dir)
  /\
  (forall dir entries s out, walk_entries w f dir entries s out ->
     healthy_entries w entries = true ->
     (forall p, In p (roots_entries w dir entries) ->
                forall s0, result_of (f p s0) = None) ->
     result_of out = None /\ visited (trace_of out) = roots_entries w dir entries).
Proof.
  assert (Hcall : forall node dir s s1 inner e,
             os_Stat_gomod node (filepath_Join dir "go.mod") = None ->
             f dir s = (s1, inner, Some e) ->
             (forall p, In p (roots w node dir) -> forall s0, result_of (f p s0) = None) ->
             False).
  { intros node dir s s1 inner e Hst Hf Hnil.
    apply stat_ok_inv in Hst. destruct Hst as (flt & entries & -> & _ & Hg).
    assert (Hin : In dir (roots w (NDir flt entries) dir)).
    { rewrite roots_NDir, Hg. now left. }
    specialize (Hnil dir Hin s). rewrite Hf in Hnil. discriminate. }
  apply walk_mutind; unfold trace_of, result_of; cbn [fst snd].
  - intros node dir s e Hst Hne Hh _. exfalso.
    rewrite (healthy_stat w node _ e Hh Hst) in Hne. discriminate.
  - intros node dir s s1 inner e Hst Hf _ _ Hnil. exfalso. eauto.
  - intros node dir s s1 inner e Hst Hf _ _ Hnil. exfalso. eauto.
  - intros flt entries dir s s1 pre code _ Hrd Hh _. exfalso.
    apply healthy_NDir in Hh. destruct Hh as (_ & Hr & _). congruence.
  - intros flt entries dir s s1 pre s2 t r Hen _ _ IH Hh Hnil.
    apply healthy_NDir in Hh. destruct Hh as (Hs & _ & He).
    destruct (IH He) as [Hr Hv].
    { intros p Hp. apply Hnil. rewrite roots_NDir. apply in_or_app. now right. }
    split; [ exact Hr | ].
    rewrite visited_app, roots_NDir.
    change (visited (EvReadDir dir :: t)) with (visited t).
    now rewrite Hv, (enters_healthy f _ _ _ _ _ _ Hs Hen).
  - auto.
  - intros dir name child rest s out El _ IH Hh Hnil.
    simpl in Hh, Hnil. rewrite El in Hh, Hnil. simpl. rewrite El. now apply IH.
  - intros dir name child rest s s1 t e El _ IH Hh Hnil. exfalso.
    simpl in Hh, Hnil. rewrite El in Hh, Hnil.
    apply andb_true_iff in Hh. destruct Hh as [Hh _].
    destruct (IH Hh) as [Hr _]; [ | discriminate ].
    intros p Hp. apply Hnil. apply in_or_app. now left.
  - intros dir name child rest s s1 t1 s2 t2 r El _ IH1 _ IH2 Hh Hnil.
    simpl in Hh, Hnil. rewrite El in Hh, Hnil.
    apply andb_true_iff in Hh. destruct Hh as [Hc Hrest].
    destruct (IH1 Hc) as [_ Hv1].
    { intros p Hp. apply Hnil. apply in_or_app. now left. }
    destruct (IH2 Hrest) as [Hr Hv2].
    { intros p Hp. apply Hnil. apply in_or_app. now right. }
    split; [ exact Hr | ].
    rewrite visited_app. simpl. rewrite El. now rewrite Hv1, Hv2.
Qed.

End OnRoots.

Section MoreAdapterFacts.

Context {St : Type}.
Variable modfile_File : Type.
Variable modfile_Parse : path -> string -> handle -> list error + modfile_File.
Variable modfile_ParseLax : path -> string -> handle -> list error + modfile_File.
Variable packages_Load : Config -> list string -> error + list Package.

Local Abbreviation cev := (cevent modfile_File).

(** X5.  A visit of [LoadEach] is the loader call followed by at most the
    call of the caller's function.  The caller's function is called exactly
    when the loader succeeds and either [FailOnPackageErrors] is off or no
    package reports an error; it then receives all the packages the loader
    returned and what it returns is what the visit returns.  Otherwise the
    visit returns the loader's error in the context of the directory, or
    the join of the packages' errors. *)
Theorem LoadEach_calls_back_iff_loaded_cleanly :
  forall (w : Walker) (node : Node) (dir : path) (f : @callback3 St) (s : St)
         (D : path) (inner : list cev) (ret : option error),
    In (EvVisit D inner ret)
       (trace_of (LoadEach packages_Load w node dir (user3 modfile_File f) s)) ->
    match packages_Load (loadConf w dir) ["./..."] with
    | inl e0 =>
        inner = [CLoad (loadConf w dir) ["./..."]]
        /\ ret = Some (Wrapf e0 "loading packages in %s" D)
    | inr pkgs =>
        if FailOnPackageErrors w && negb (forallb (fun pkg => is_nil (Errors pkg)) pkgs)
        then inner = [CLoad (loadConf w dir) ["./..."]]
             /\ ret = joinPackageErrors pkgs /\ ret <> None
        else inner = [CLoad (loadConf w dir) ["./..."];
                      CCallback D None (Some pkgs) ret]
    end
    /\
    ((exists c, In c inner /\ isCallback c = true) <->
     (exists pkgs,
         packages_Load (loadConf w dir) ["./..."] = inr pkgs /\
         (FailOnPackageErrors w = false \/
          forallb (fun pkg => is_nil (Errors pkg)) pkgs = true))).
Proof.
  intros w node dir f s D inner ret Hin. unfold LoadEach in Hin.
  destruct (Each_visits_are_calls _ _ _ _ _ _ _ _ Hin) as (s0 & s1 & Hcall).
  rewrite loadEach_visit_eq in Hcall.
  destruct (packages_Load (loadConf w dir) ["./..."]) as [e0 | pkgs].
  - inversion Hcall; subst. split; [ auto | ]. split.
    + intros (c & [<- | []] & Hc). discriminate.
    + intros (pkgs & Hl & _). discriminate.
  - destruct (FailOnPackageErrors w) eqn:Hflag; cbn [andb].
    + destruct (forallb (fun pkg => is_nil (Errors pkg)) pkgs) eqn:Hall; cbn [negb].
      * rewrite (proj2 (joinPackageErrors_None_iff pkgs) Hall) in Hcall.
        unfold user3 in Hcall. destruct (f D pkgs s0) as [s2 r].
        inversion Hcall; subst. split; [ reflexivity | ]. split.
        -- intros _. exists pkgs. auto.
        -- intros _. eexists. split; [ right; left; reflexivity | reflexivity ].
      * destruct (joinPackageErrors pkgs) as [agg |] eqn:Hj.
        -- inversion Hcall; subst. split; [ repeat split; discriminate | ]. split.
           ++ intros (c & [<- | []] & Hc). discriminate.
           ++ intros (pkgs' & Hl & [Hf | Hf]); [ discriminate | ].
              inversion Hl; subst. congruence.
        -- apply joinPackageErrors_None_iff in Hj. congruence.
    + unfold user3 in Hcall. destruct (f D pkgs s0) as [s2 r].
      inversion Hcall; subst. split; [ reflexivity | ]. split.
      * intros _. exists pkgs. auto.
      * intros _. eexists. split; [ right; left; reflexivity | reflexivity ].
Qed.

(** X6.  If the loader itself fails at a module root [D], with an error
    that is not one of the walker's control signals, the caller's function
    is not called there, the visit is the last thing the walk does, and
    [LoadEach] returns the loader's error with the directory as context,
    twice: once from the visit and once from the walk. *)
Theorem LoadEach_loader_failure_ends_the_walk :
  forall (w : Walker) (node : Node) (dir : path) (f : @callback3 St) (s : St)
         (D : path) (inner : list cev) (ret : option error) (e0 : error),
    In (EvVisit D inner ret)
       (trace_of (LoadEach packages_Load w node dir (user3 modfile_File f) s)) ->
    packages_Load (loadConf w dir) ["./..."] = inl e0 ->
    fatal e0 ->
    inner = [CLoad (loadConf w dir) ["./..."]]
    /\ result_of (LoadEach packages_Load w node dir (user3 modfile_File f) s)
       = Some (Wrapf (Wrapf e0 "loading packages in %s" D) "in %s" D)
    /\ exists before,
         trace_of (LoadEach packages_Load w node dir (user3 modfile_File f) s)
         = before ++ [EvVisit D inner ret].
Proof.
  intros w node dir f s D inner ret e0 Hin Hload [HnoSkip HnoStop]. unfold LoadEach in *.
  destruct (Each_visits_are_calls _ _ _ _ _ _ _ _ Hin) as (s0 & s1 & Hcall).
  rewrite loadEach_visit_eq, Hload in Hcall. inversion Hcall; subst.
  split; [ reflexivity | ].
  destruct (Each_abort _ _ _ _ _ _ _ _ Hin HnoSkip) as [Hr Ht].
  cbn [errors_Is] in Hr. rewrite HnoStop in Hr. split; [ exact Hr | exact Ht ].
Qed.

(** X7.  A visit of [EachGomod] reads the [go.mod] of the directory it
    visits, parses it with [modfile.ParseLax] when [ParseLax] is set and
    with [modfile.Parse] otherwise, passing [VersionFixer], and calls the
    caller's function with that directory and that manifest; what the
    caller's function returns is what the visit returns.  A failing read or
    parse ends the visit with its error in the context of the file. *)
Theorem EachGomod_hands_over_the_manifest_of_the_directory :
  forall (w : Walker) (node : Node) (dir : path) (f : callback2 modfile_File) (s : St)
         (D : path) (inner : list cev) (ret : option error),
    In (EvVisit D inner ret)
       (trace_of (EachGomod modfile_Parse modfile_ParseLax w node dir (user2 f) s)) ->
    match os_ReadFile (mkFS dir node) (filepath_Join D "go.mod") with
    | inl e =>
        inner = [CReadFile (filepath_Join D "go.mod")]
        /\ ret = Some (Wrapf e "reading %s" (filepath_Join D "go.mod"))
    | inr data =>
        match (if ParseLax w
               then modfile_ParseLax (filepath_Join D "go.mod") data (VersionFixer w)
               else modfile_Parse (filepath_Join D "go.mod") data (VersionFixer w)) with
        | inl errs =>
            inner = [CReadFile (filepath_Join D "go.mod");
                     CParse (ParseLax w) (filepath_Join D "go.mod") (VersionFixer w)]
            /\ ret = Some (Wrapf (ErrorList errs) "parsing %s" (filepath_Join D "go.mod"))
        | inr mf =>
            inner = [CReadFile (filepath_Join D "go.mod");
                     CParse (ParseLax w) (filepath_Join D "go.mod") (VersionFixer w);
                     CCallback D (Some mf) None ret]
        end
    end.
Proof.
  intros w node dir f s D inner ret Hin. unfold EachGomod in Hin.
  destruct (Each_visits_are_calls _ _ _ _ _ _ _ _ Hin) as (s0 & s1 & Hcall).
  rewrite withGomod_eq in Hcall. unfold parse_gomod in Hcall.
  destruct (os_ReadFile (mkFS dir node) (filepath_Join D "go.mod")) as [e | data].
  { inversion Hcall. auto. }
  destruct (if ParseLax w
            then modfile_ParseLax (filepath_Join D "go.mod") data (VersionFixer w)
            else modfile_Parse (filepath_Join D "go.mod") data (VersionFixer w))
    as [errs | mf].
  { inversion Hcall. auto. }
  unfold user2 in Hcall. destruct (f D mf s0) as [s2 r]. inversion Hcall. reflexivity.
Qed.

(** X8.  On a tree where no [stat] and no listing fails and the [go.mod]
    of every directory of [roots] can be read and parses, [EachGomod] with
    a caller's function that always returns nil returns nil and calls it
    once for every directory of [roots], in that order, each time with the
    manifest of that directory. *)
Theorem EachGomod_calls_back_every_root_with_its_manifest :
  forall (w : Walker) (node : Node) (dir : path) (f : callback2 modfile_File) (s : St),
    healthy w node = true ->
    (forall D, In D (roots w node dir) ->
               read_manifest modfile_File modfile_Parse modfile_ParseLax w (mkFS dir node) D <> None) ->
    (forall p mf s0, snd (f p mf s0) = None) ->
    result_of (EachGomod modfile_Parse modfile_ParseLax w node dir (user2 f) s) = None
    /\ visited (trace_of (EachGomod modfile_Parse modfile_ParseLax w node dir (user2 f) s))
       = roots w node dir
    /\ callbacks (trace_of (EachGomod modfile_Parse modfile_ParseLax w node dir (user2 f) s))
       = map (fun D =>
                CCallback D (read_manifest modfile_File modfile_Parse modfile_ParseLax w (mkFS dir node) D)
                          None None)
             (roots w node dir).
Proof.
  intros w node dir f s Hh Hman Hnil. unfold EachGomod.
  set (g := fun subdir => withGomod modfile_Parse modfile_ParseLax w (mkFS dir node)
                                    dir subdir (user2 f)).
  assert (Hg : forall D s0,
             read_manifest modfile_File modfile_Parse modfile_ParseLax w (mkFS dir node) D <> None ->
             result_of (g D s0) = None /\
             filter isCallback (trace_of (g D s0)) =
             [CCallback D (read_manifest modfile_File modfile_Parse modfile_ParseLax w (mkFS dir node) D)
                        None None]).
  { intros D s0 HD. unfold g. rewrite withGomod_eq. unfold read_manifest in *.
    destruct (os_ReadFile (mkFS dir node) (filepath_Join D "go.mod")) as [e | data];
      [ congruence | ].
    destruct (parse_gomod modfile_Parse modfile_ParseLax w (filepath_Join D "go.mod") data)
      as [errs | mf]; [ congruence | ].
    unfold user2. specialize (Hnil D mf s0). destruct (f D mf s0) as [s2 r].
    simpl in Hnil. subst r. split; reflexivity. }
  destruct (proj1 (walk_all_roots_on w g) _ _ _ _ (each_walk w g node dir s) Hh)
    as [Hr Hv].
  { intros p Hp s0. now apply Hg, Hman. }
  rewrite Each_trace, Each_result, Hr, Hv. split; [ reflexivity | ].
  split; [ reflexivity | ].
  rewrite <- Hv. apply callbacks_of_visits.
  intros D inner r Hin.
  assert (HD : In D (roots w node dir)).
  { rewrite <- Hv. apply visited_iff. eauto. }
  destruct (proj1 (walk_visits_are_calls w g) _ _ _ _ (each_walk w g node dir s)
              D inner r Hin) as (s0 & s1 & Hcall).
  destruct (Hg D s0 (Hman D HD)) as [_ Hfilter].
  rewrite Hcall in Hfilter. exact Hfilter.
Qed.

End MoreAdapterFacts.

Lemma LoadEach_calls_back_iff_loaded_cleanly_witness :
  In (EvVisit ["root"; "a"]
              [CLoad (loadConf zeroWalker Scenario.root) ["./..."];
               CCallback ["root"; "a"] None
                         (Some [mkPackage "m/ok" []; mkPackage "m/x" [Scenario.undefined_x]])
                         None]
              None)
     (trace_of (LoadEach Examples.load_mixed zeroWalker Scenario.nested Scenario.root
                         (user3 string Scenario.count3) 0))
  /\ FailOnPackageErrors zeroWalker = false
  /\ exists pkgs,
       Examples.load_mixed (loadConf zeroWalker Scenario.root) ["./..."] = inr pkgs
       /\ (FailOnPackageErrors zeroWalker = false \/
           forallb (fun pkg => is_nil (Errors pkg)) pkgs = true).
Proof.
  assert (Hin : In (EvVisit ["root"; "a"]
                      [CLoad (loadConf zeroWalker Scenario.root) ["./..."];
                       CCallback ["root"; "a"] None
                         (Some [mkPackage "m/ok" [];
                                mkPackage "m/x" [Scenario.undefined_x]])
                         None]
                      None)
                   (trace_of (LoadEach Examples.load_mixed zeroWalker Scenario.nested
                                Scenario.root (user3 string Scenario.count3) 0))).
  { vm_compute. auto 10. }
  destruct (@LoadEach_calls_back_iff_loaded_cleanly nat string Examples.load_mixed
              zeroWalker Scenario.nested Scenario.root Scenario.count3 0
              ["root"; "a"] _ _ Hin) as [_ [Hcalled _]].
  split; [ exact Hin | ]. split; [ reflexivity | ].
  apply Hcalled. eexists. split; [ right; left; reflexivity | reflexivity ].
Defined.

Lemma LoadEach_loader_failure_ends_the_walk_witness :
  In (EvVisit ["root"]
              [CLoad (loadConf zeroWalker Scenario.root) ["./..."]]
              (Some (Wrapf (ErrorString "go list: exit status 1")
                           "loading packages in %s" ["root"])))
     (trace_of (LoadEach Examples.load_fails zeroWalker Scenario.nested Scenario.root
                         (user3 string Scenario.count3) 0))
  /\ Examples.load_fails (loadConf zeroWalker Scenario.root) ["./..."]
     = inl (ErrorString "go list: exit status 1")
  /\ fatal (ErrorString "go list: exit status 1")
  /\ result_of (LoadEach Examples.load_fails zeroWalker Scenario.nested Scenario.root
                         (user3 string Scenario.count3) 0)
     = Some (Wrapf (Wrapf (ErrorString "go list: exit status 1")
                          "loading packages in %s" ["root"])
                   "in %s" ["root"]).
Proof.
  assert (Hin : In (EvVisit ["root"]
                      [CLoad (loadConf zeroWalker Scenario.root) ["./..."]]
                      (Some (Wrapf (ErrorString "go list: exit status 1")
                                   "loading packages in %s" ["root"])))
                   (trace_of (LoadEach Examples.load_fails zeroWalker Scenario.nested
                                Scenario.root (user3 string Scenario.count3) 0))).
  { vm_compute. auto 10. }
  assert (Hload : Examples.load_fails (loadConf zeroWalker Scenario.root) ["./..."]
                  = inl (ErrorString "go list: exit status 1")) by reflexivity.
  assert (Hfatal : fatal (ErrorString "go list: exit status 1")) by (split; reflexivity).
  destruct (@LoadEach_loader_failure_ends_the_walk nat string Examples.load_fails
              zeroWalker Scenario.nested Scenario.root Scenario.count3 0
              ["root"] _ _ _ Hin Hload Hfatal) as (_ & Hr & _).
  split; [ exact Hin | ]. split; [ exact Hload | ]. split; [ exact Hfatal | exact Hr ].
Defined.

Lemma EachGomod_hands_over_the_manifest_of_the_directory_witness :
  In (EvVisit ["root"; "a"]
              [CReadFile ["root"; "a"; "go.mod"];
               CParse false ["root"; "a"; "go.mod"] None;
               CCallback ["root"; "a"] (Some "module m") None None]
              None)
     (trace_of (EachGomod Scenario.parse Scenario.parse zeroWalker Scenario.nested
                          Scenario.root (user2 Scenario.count2) 0))
  /\ os_ReadFile (mkFS Scenario.root Scenario.nested) ["root"; "a"; "go.mod"]
     = inr "module m"
  /\ Scenario.parse ["root"; "a"; "go.mod"] "module m" None = inr "module m".
Proof.
  assert (Hin : In (EvVisit ["root"; "a"]
                      [CReadFile ["root"; "a"; "go.mod"];
                       CParse false ["root"; "a"; "go.mod"] None;
                       CCallback ["root"; "a"] (Some "module m") None None]
                      None)
                   (trace_of (EachGomod Scenario.parse Scenario.parse zeroWalker
                                Scenario.nested Scenario.root (user2 Scenario.count2) 0))).
  { vm_compute. auto 10. }
  pose proof (@EachGomod_hands_over_the_manifest_of_the_directory nat string
                Scenario.parse Scenario.parse zeroWalker Scenario.nested Scenario.root
                Scenario.count2 0 ["root"; "a"] _ _ Hin) as Hshape.
  split; [ exact Hin | ]. split; reflexivity.
Defined.

Lemma EachGomod_calls_back_every_root_with_its_manifest_witness :
  healthy zeroWalker Scenario.nested = true
  /\ (forall D, In D (roots zeroWalker Scenario.nested Scenario.root) ->
                read_manifest string Scenario.parse Scenario.parse zeroWalker
                              (mkFS Scenario.root Scenario.nested) D <> None)
  /\ (forall p mf s0, snd (Scenario.count2 p mf s0) = None)
  /\ callbacks (trace_of (EachGomod Scenario.parse Scenario.parse zeroWalker
                                    Scenario.nested Scenario.root
                                    (user2 Scenario.count2) 0))
     = map (fun D =>
              CCallback D (read_manifest string Scenario.parse Scenario.parse zeroWalker
                                         (mkFS Scenario.root Scenario.nested) D)
                        None None)
           (roots zeroWalker Scenario.nested Scenario.root)
  /\ List.length (roots zeroWalker Scenario.nested Scenario.root) = 4.
Proof.
  assert (Hh : healthy zeroWalker Scenario.nested = true) by reflexivity.
  assert (Hman : forall D, In D (roots zeroWalker Scenario.nested Scenario.root) ->
                   read_manifest string Scenario.parse Scenario.parse zeroWalker
                                 (mkFS Scenario.root Scenario.nested) D <> None).
  { intros D HD. simpl in HD.
    destruct HD as [<- | [<- | [<- | [<- | []]]]]; discriminate. }
  assert (Hnil : forall p mf s0, snd (Scenario.count2 p mf s0) = None)
    by (intros; reflexivity).
  destruct (@EachGomod_calls_back_every_root_with_its_manifest nat string
              Scenario.parse Scenario.parse zeroWalker Scenario.nested Scenario.root
              Scenario.count2 0 Hh Hman Hnil) as (_ & _ & Hc).
  split; [ exact Hh | ]. split; [ exact Hman | ]. split; [ exact Hnil | ].
  split; [ exact Hc | reflexivity ].
Defined.

(** ** The package-level functions *)

Section PackageFacts.

Context {St : Type}.
Variable modfile_File : Type.
Variable modfile_Parse : path -> string -> handle -> list error + modfile_File.
Variable modfile_ParseLax : path -> string -> handle -> list error + modfile_File.
Variable packages_Load : Config -> list string -> error + list Package.

Local Abbreviation cev := (cevent modfile_File).

(** X9.  The package-level functions walk with the zero [Walker].
    [Each] keeps out of every [vendor] and [testdata] directory, as it
    does of the names that begin with [.] or [_].  [EachGomod] parses
    strictly, with [modfile.Parse] and no version fixer, and only the
    [go.mod] of the directory it visits.  [LoadEach] and [LoadEachGomod]
    begin every visit with the loader on [DefaultLoadConfig] with [Dir]
    set, and [LoadEach] hands whatever the loader returns to the caller's
    function, the errors of the packages not being looked at. *)
Theorem package_level_functions_use_the_defaults :
  (forall (C : Type) (node : Node) (dir : path) (f : @visitor St C) (s : St),
      Forall
        (fun ev =>
           exists suffix,
             ev_dir ev = dir ++ suffix /\
             Forall
               (fun name =>
                  name <> "vendor" /\ name <> "testdata" /\
                  String.prefix "." name = false /\ String.prefix "_" name = false)
               suffix)
        (trace_of (modules_Each node dir f s)))
  /\
  (forall (node : Node) (dir : path) (f : callback2 modfile_File) (s : St)
          (D : path) (inner : list cev) (ret : option error),
      In (EvVisit D inner ret)
         (trace_of (modules_EachGomod modfile_File modfile_Parse modfile_ParseLax
                                      node dir (user2 f) s)) ->
      forall lax p fixer,
        In (CParse lax p fixer) inner ->
        lax = false /\ fixer = None /\ p = filepath_Join D "go.mod")
  /\
  (forall (node : Node) (dir : path) (f : @callback3 St) (s : St)
          (D : path) (inner : list cev) (ret : option error),
      In (EvVisit D inner ret)
         (trace_of (modules_LoadEach modfile_File packages_Load node dir
                                     (user3 modfile_File f) s)) ->
      (exists rest, inner = CLoad (set_Dir DefaultLoadConfig dir) ["./..."] :: rest)
      /\
      (forall pkgs,
          packages_Load (set_Dir DefaultLoadConfig dir) ["./..."] = inr pkgs ->
          inner = [CLoad (set_Dir DefaultLoadConfig dir) ["./..."];
                   CCallback D None (Some pkgs) ret]))
  /\
  (forall (node : Node) (dir : path) (f : callback4 modfile_File) (s : St)
          (D : path) (inner : list cev) (ret : option error),
      In (EvVisit D inner ret)
         (trace_of (modules_LoadEachGomod modfile_File modfile_Parse modfile_ParseLax
                                          packages_Load node dir (user4 f) s)) ->
      exists rest, inner = CLoad (set_Dir DefaultLoadConfig dir) ["./..."] :: rest).
Proof.
  split; [ | split; [ | split ] ].
  - intros C node dir f s. unfold modules_Each. rewrite Each_trace.
    pose proof (proj1 (walk_within zeroWalker f) _ _ _ _
                  (each_walk zeroWalker f node dir s)) as H.
    eapply Forall_impl; [ | exact H ].
    intros ev (suffix & Heq & Hs). exists suffix. split; [ exact Heq | ].
    eapply Forall_impl; [ | exact Hs ].
    intros name Hname. apply allowed_name_spec in Hname.
    destruct Hname as (Hdot & Hund & Hv & Ht). repeat split; auto.
    + intros Heq'. specialize (Hv Heq'). discriminate.
    + intros Heq'. specialize (Ht Heq'). discriminate.
  - intros node dir f s D inner ret Hin lax p fixer Hp.
    unfold modules_EachGomod, EachGomod in Hin.
    destruct (Each_visits_are_calls _ _ _ _ _ _ _ _ Hin) as (s0 & s1 & Hcall).
    rewrite withGomod_eq in Hcall.
    destruct (os_ReadFile (mkFS dir node) (filepath_Join D "go.mod")) as [e | data].
    { inversion Hcall; subst. destruct Hp as [Hp | []]. discriminate. }
    destruct (parse_gomod modfile_Parse modfile_ParseLax zeroWalker
                          (filepath_Join D "go.mod") data) as [errs | mf].
    { inversion Hcall; subst.
      destruct Hp as [Hp | [Hp | []]]; [ discriminate | ]. inversion Hp. auto. }
    unfold user2 in Hcall. destruct (f D mf s0) as [s2 r]. inversion Hcall; subst.
    destruct Hp as [Hp | [Hp | [Hp | []]]]; try discriminate. inversion Hp. auto.
  - intros node dir f s D inner ret Hin.
    unfold modules_LoadEach, LoadEach in Hin.
    change (loadConf zeroWalker dir) with (set_Dir DefaultLoadConfig dir) in Hin.
    destruct (Each_visits_are_calls _ _ _ _ _ _ _ _ Hin) as (s0 & s1 & Hcall).
    rewrite loadEach_visit_eq in Hcall.
    change (FailOnPackageErrors zeroWalker) with false in Hcall.
    destruct (packages_Load (set_Dir DefaultLoadConfig dir) ["./..."]) as [e0 | pkgs].
    + inversion Hcall; subst. split; [ eauto | ]. intros pkgs Hl. discriminate.
    + unfold user3 in Hcall. destruct (f D pkgs s0) as [s2 r]. inversion Hcall; subst.
      split; [ eauto | ]. intros pkgs' Hl. inversion Hl; subst. reflexivity.
  - intros node dir f s D inner ret Hin.
    unfold modules_LoadEachGomod, LoadEachGomod in Hin.
    apply LoadEach_visit_starts_with_load in Hin. exact Hin.
Qed.

End PackageFacts.

Lemma package_level_functions_use_the_defaults_witness :
  In (EvVisit ["root"; "a"]
              [CLoad (set_Dir DefaultLoadConfig Scenario.root) ["./..."];
               CCallback ["root"; "a"] None
                         (Some [mkPackage "m/ok" []; mkPackage "m/x" [Scenario.undefined_x]])
                         None]
              None)
     (trace_of (modules_LoadEach string Examples.load_mixed Scenario.nested Scenario.root
                                 (user3 string Scenario.count3) 0))
  /\ visited (trace_of (modules_Each (C := Empty_set) Scenario.t Scenario.root
                                     (user1 Scenario.count) 0))
     = [["root"]; ["root"; "a"]].
Proof.
  destruct (@package_level_functions_use_the_defaults nat string Scenario.parse
              Scenario.parse Examples.load_mixed) as (_ & _ & Hload & _).
  assert (Hin : In (EvVisit ["root"; "a"]
                      [CLoad (set_Dir DefaultLoadConfig Scenario.root) ["./..."];
                       CCallback ["root"; "a"] None
                         (Some [mkPackage "m/ok" [];
                                mkPackage "m/x" [Scenario.undefined_x]])
                         None]
                      None)
                   (trace_of (modules_LoadEach string Examples.load_mixed Scenario.nested
                                Scenario.root (user3 string Scenario.count3) 0))).
  { vm_compute. auto 10. }
  destruct (Hload Scenario.nested Scenario.root Scenario.count3 0 _ _ _ Hin) as [_ _].
  split; [ exact Hin | reflexivity ].
Defined.

(** ** The earlier [LoadEach] *)

(** X10.  The earlier [LoadEach] begins every visit with the loader on a
    configuration built for that visit: its [Dir] is the directory visited,
    its [Tests] is [LoadTests], and its [Mode] is [LoadMode] as the caller
    set it, zero included: the default mode computed on entry is not the
    one the loader gets. *)
Theorem earlier_LoadEach_loads_each_root_in_place :
  forall (St modfile_File : Type)
         (packages_Load : Config -> list string -> error + list Package)
         (w : Earlier.Walker) (node : Node) (dir : path)
         (g : path -> list Package -> M St (cevent modfile_File) (option error)) (s : St)
         (D : path) (inner : list (cevent modfile_File)) (ret : option error),
    In (EvVisit D inner ret)
       (trace_of (Earlier.LoadEach modfile_File packages_Load w node dir g s)) ->
    exists rest,
      inner =
      CLoad (mkConfig (Earlier.LoadMode w) None None D None None None None
                      (Earlier.LoadTests w) None)
            ["./..."]
      :: rest.
Proof.
  intros St modfile_File packages_Load w node dir g s D inner rv Hin.
  unfold Earlier.LoadEach in Hin. cbv zeta in Hin.
  destruct (Each_visits_are_calls _ _ _ _ _ _ _ _ Hin) as (s0 & s1 & Hcall).
  unfold Earlier.loadEach_visit, Earlier.visit_conf, bind, emit, ret in Hcall.
  destruct (packages_Load _ _) as [e0 | pkgs].
  - inversion Hcall. eauto.
  - destruct (Earlier.FailOnPackageErrors w).
    + destruct (Earlier.joinPackageErrors pkgs).
      * inversion Hcall. eauto.
      * destruct (g D pkgs s0) as [[s2 t] r]. inversion Hcall. eauto.
    + destruct (g D pkgs s0) as [[s2 t] r]. inversion Hcall. eauto.
Qed.

Lemma earlier_LoadEach_loads_each_root_in_place_witness :
  In (EvVisit ["root"; "a"]
              [CLoad (mkConfig 0 None None ["root"; "a"] None None None None true None)
                     ["./..."];
               CCallback ["root"; "a"] None (Some [mkPackage "root/a" []]) None]
              None)
     (trace_of (Earlier.LoadEach string Scenario.load Examples.earlier Scenario.nested
                                 Scenario.root (user3 string Scenario.count3) 0))
  /\ exists rest : list (cevent string),
       [CLoad (mkConfig 0 None None ["root"; "a"] None None None None true None) ["./..."];
        CCallback ["root"; "a"] None (Some [mkPackage "root/a" []]) None]
       = CLoad (mkConfig (Earlier.LoadMode Examples.earlier) None None ["root"; "a"]
                         None None None None (Earlier.LoadTests Examples.earlier) None)
               ["./..."]
         :: rest.
Proof.
  assert (Hin : In (EvVisit ["root"; "a"]
                      [CLoad (mkConfig 0 None None ["root"; "a"] None None None None true None)
                             ["./..."];
                       CCallback ["root"; "a"] None (Some [mkPackage "root/a" []]) None]
                      None)
                   (trace_of (Earlier.LoadEach string Scenario.load Examples.earlier
                                Scenario.nested Scenario.root
                                (user3 string Scenario.count3) 0))).
  { vm_compute. auto 10. }
  split; [ exact Hin | ].
  exact (earlier_LoadEach_loads_each_root_in_place nat string Scenario.load
           Examples.earlier Scenario.nested Scenario.root (user3 string Scenario.count3) 0
           ["root"; "a"] _ _ Hin).
Defined.

(** ** The fields of the walker the traversal reads *)

Lemma eligible_flags w w' name child :
  IncludeVendor w = IncludeVendor w' ->
  IncludeTestdata w = IncludeTestdata w' ->
  eligible w name child = eligible w' name child.
Proof. intros Hv Ht. unfold eligible, allowed_name. now rewrite Hv, Ht. Qed.

Lemma each_flags {St C} w w' (f : @visitor St C) :
  IncludeVendor w = IncludeVendor w' ->
  IncludeTestdata w = IncludeTestdata w' ->
  forall node dir s, each w node dir f s = each w' node dir f s.
Proof.
  intros Hv Ht.
  induction node as [data | flt entries IH] using Node_nested_ind; intros dir s.
  - reflexivity.
  - assert (He : forall s1, each_entries w f dir entries s1 = each_entries w' f dir entries s1).
    { clear flt s.
      induction IH as [| [name child] rest Hchild _ IHrest]; intros s1; [ reflexivity | ].
      rewrite !each_entries_cons, (eligible_flags w w' name child Hv Ht).
      destruct (eligible w' name child); [ | apply IHrest ].
      unfold bind. simpl in Hchild. rewrite Hchild.
      destruct (each w' child (filepath_Join dir name) f s1) as [[s2 t] [e |]];
        [ reflexivity | ].
      now rewrite IHrest. }
    rewrite !each_NDir. cbv zeta.
    destruct (os_Stat_gomod (NDir flt entries) (filepath_Join dir "go.mod")) as [e |].
    + destruct (errors_Is e ErrNotExist); [ | reflexivity ].
      now rewrite He.
    + destruct (f dir s) as [[s1 inner] [e |]]; [ reflexivity | ].
      now rewrite He.
Qed.

(** X11.  The traversal reads two fields of the walker only: two walkers
    that agree on [IncludeVendor] and [IncludeTestdata] walk any tree the
    same way, with the same calls, the same final state and the same
    result, whatever their [ParseLax], [VersionFixer], [LoadConfig] and
    [FailOnPackageErrors]. *)
Theorem Each_reads_only_the_include_flags :
  forall (St C : Type) (w w' : Walker) (node : Node) (dir : path)
         (f : @visitor St C) (s : St),
    IncludeVendor w = IncludeVendor w' ->
    IncludeTestdata w = IncludeTestdata w' ->
    Each w node dir f s = Each w' node dir f s.
Proof.
  intros St C w w' node dir f s Hv Ht.
  rewrite !Each_eq. now rewrite (each_flags w w' f Hv Ht).
Qed.

Lemma Each_reads_only_the_include_flags_witness :
  IncludeVendor zeroWalker
  = IncludeVendor (mkWalker false false true (Some 1%nat) DefaultLoadConfig true)
  /\ IncludeTestdata zeroWalker
     = IncludeTestdata (mkWalker false false true (Some 1%nat) DefaultLoadConfig true)
  /\ Each zeroWalker Scenario.nested Scenario.root
          (user1 (C := Empty_set) Examples.record) []
     = Each (mkWalker false false true (Some 1%nat) DefaultLoadConfig true)
            Scenario.nested Scenario.root
            (user1 (C := Empty_set) Examples.record) [].
Proof.
  split; [ reflexivity | ]. split; [ reflexivity | ].
  apply (Each_reads_only_the_include_flags (list path) Empty_set zeroWalker
           (mkWalker false false true (Some 1%nat) DefaultLoadConfig true));
    reflexivity.
Defined.

(** ** Turning the include flags on *)

Section MoreFlags.

Variables w w' : Walker.
Hypothesis vendor_le : IncludeVendor w = true -> IncludeVendor w' = true.
Hypothesis testdata_le : IncludeTestdata w = true -> IncludeTestdata w' = true.

Lemma eligible_mono name child :
  eligible w name child = true -> eligible w' name child = true.
Proof.
  unfold eligible, allowed_name.
  destruct (IsDir child); [ | discriminate ].
  destruct (String.prefix "." name || String.prefix "_" name); [ discriminate | ].
  destruct (IncludeVendor w) eqn:Hv; [ rewrite (vendor_le eq_refl) | ];
    (destruct (IncludeTestdata w) eqn:Ht; [ rewrite (testdata_le eq_refl) | ]);
    destruct (String.eqb name "vendor"), (String.eqb name "testdata");
    destruct (IncludeVendor w'), (IncludeTestdata w'); simpl; auto.
Qed.

Lemma healthy_mono node : healthy w' node = true -> healthy w node = true.
Proof.
  induction node as [data | flt entries IH] using Node_nested_ind; [ discriminate | ].
  intros Hh. apply healthy_NDir in Hh. destruct Hh as (Hs & Hr & He).
  change (healthy w (NDir flt entries)) with
    (is_none (statFault flt) && is_none (readDirFault flt) && healthy_entries w entries).
  rewrite Hs, Hr. simpl. clear flt Hs Hr.
  induction IH as [| [name child] rest Hchild _ IHrest]; [ reflexivity | ].
  simpl in He |- *. apply andb_true_iff in He. destruct He as [Hc Hrest].
  rewrite (IHrest Hrest), andb_true_r.
  destruct (eligible w name child) eqn:El; [ | reflexivity ].
  rewrite (eligible_mono _ _ El) in Hc. now apply Hchild.
Qed.

Lemma roots_mono node : forall dir, subseq (roots w node dir) (roots w' node dir).
Proof.
  induction node as [data | flt entries IH] using Node_nested_ind; intros dir.
  - apply subseq_nil.
  - rewrite !roots_NDir. apply subseq_app.
    + destruct (has_gomod entries); [ apply subseq_keep | ]; apply subseq_nil.
    + clear flt. induction IH as [| [name child] rest Hchild _ IHrest]; [ apply subseq_nil | ].
      simpl. apply subseq_app; [ | exact IHrest ].
      destruct (eligible w name child) eqn:El.
      * rewrite (eligible_mono _ _ El). apply Hchild.
      * apply subseq_nil_l.
Qed.

End MoreFlags.

(** X12.  Turning [IncludeVendor] or [IncludeTestdata] on only adds module
    roots.  On a tree where no [stat] and no listing fails for the walker
    with more flags on, and with a callback that always returns nil, every
    directory the walker with fewer flags calls the callback on is one the
    other calls it on too, and in the same relative order. *)
Theorem include_flags_only_add_roots :
  forall (St C : Type) (w w' : Walker) (node : Node) (dir : path)
         (f : @visitor St C) (s : St),
    (IncludeVendor w = true -> IncludeVendor w' = true) ->
    (IncludeTestdata w = true -> IncludeTestdata w' = true) ->
    healthy w' node = true ->
    (forall p s0, result_of (f p s0) = None) ->
    subseq (visited (trace_of (Each w node dir f s)))
           (visited (trace_of (Each w' node dir f s)))
    /\ result_of (Each w node dir f s) = None
    /\ result_of (Each w' node dir f s) = None.
Proof.
  intros St C w w' node dir f s Hv Ht Hh' Hnil.
  pose proof (healthy_mono w w' Hv Ht node Hh') as Hh.
  destruct (proj1 (walk_all_roots_on w f) _ _ _ _ (each_walk w f node dir s) Hh)
    as [Hr Hvis]; [ intros p _; apply Hnil | ].
  destruct (proj1 (walk_all_roots_on w' f) _ _ _ _ (each_walk w' f node dir s) Hh')
    as [Hr' Hvis']; [ intros p _; apply Hnil | ].
  rewrite !Each_trace, !Each_result, Hr, Hr', Hvis, Hvis'.
  split; [ now apply roots_mono | split; reflexivity ].
Qed.

Lemma include_flags_only_add_roots_witness :
  healthy (mkWalker true false false None zeroLoadConfig false) Scenario.t = true
  /\ visited (trace_of (Each zeroWalker Scenario.t Scenario.root
                             (user1 (C := Empty_set) Examples.record) []))
     = [["root"]; ["root"; "a"]]
  /\ visited (trace_of (Each (mkWalker true false false None zeroLoadConfig false)
                             Scenario.t Scenario.root
                             (user1 (C := Empty_set) Examples.record) []))
     = [["root"]; ["root"; "a"]; ["root"; "a"; "vendor"]]
  /\ subseq (visited (trace_of (Each zeroWalker Scenario.t Scenario.root
                                     (user1 (C := Empty_set) Examples.record) [])))
            (visited (trace_of (Each (mkWalker true false false None zeroLoadConfig false)
                                     Scenario.t Scenario.root
                                     (user1 (C := Empty_set) Examples.record) []))).
Proof.
  assert (Hh : healthy (mkWalker true false false None zeroLoadConfig false) Scenario.t
               = true) by reflexivity.
  assert (Hv : IncludeVendor zeroWalker = true ->
               IncludeVendor (mkWalker true false false None zeroLoadConfig false) = true)
    by (intros _; reflexivity).
  assert (Ht : IncludeTestdata zeroWalker = true ->
               IncludeTestdata (mkWalker true false false None zeroLoadConfig false) = true)
    by (intros H; exact H).
  assert (Hn : forall p s0, result_of (user1 (C := Empty_set) Examples.record p s0) = None)
    by (intros; reflexivity).
  destruct (include_flags_only_add_roots (list path) Empty_set zeroWalker
              (mkWalker true false false None zeroLoadConfig false)
              Scenario.t Scenario.root (user1 Examples.record) [] Hv Ht Hh Hn)
    as (Hsub & _ & _).
  split; [ exact Hh | ]. split; [ reflexivity | ]. split; [ reflexivity | exact Hsub ].
Defined.
